(** * Race line trajectory editor: the periodic trajectory spline engine

    A shallow embedding of [graphic_editor/application.py]: nearest-segment
    insertion of control points, the closed-loop spline sampler, the velocity
    profile with its drag and reparametrisation steps, and the curvature
    denominators of the CSV export.

    Python floats are read through an interface of arithmetic operations
    ([Arith]).  Two instances are given: [binary64], the IEEE doubles that
    CPython and NumPy compute with, and [exactQ], exact rational arithmetic,
    which obeys the ordered-arithmetic laws ([ArithLaws]) that some theorems
    rely on.  SciPy's interpolants are parameters of the functions that call
    them. *)

From Stdlib Require Import ZArith QArith Qreduction Qabs Qround Lia Floats Uint63.
From stdpp Require Import base option list gmap.

(** ** Python exceptions as values *)

Inductive exn : Type :=
| ValueError
| IndexError.

Inductive result (A : Type) : Type :=
| Ok (a : A)
| Raise (e : exn).
Arguments Ok {A} a.
Arguments Raise {A} e.

Definition rbind {A B : Type} (m : result A) (k : A -> result B) : result B :=
  match m with
  | Ok a => k a
  | Raise e => Raise e
  end.

Notation "'let*' x ':=' m 'in' k" := (rbind m (fun x => k))
  (at level 10, x name, m at level 100, k at level 200).

(** [try: m except Exception: d] *)
Definition try_except {A : Type} (m : result A) (d : A) : A :=
  match m with
  | Ok a => a
  | Raise _ => d
  end.

(** A vectorised call [f(array)]: the first failing element aborts the call. *)
Fixpoint rmap {A B : Type} (f : A -> result B) (l : list A) : result (list B) :=
  match l with
  | [] => Ok []
  | a :: l' => let* b := f a in let* bs := rmap f l' in Ok (b :: bs)
  end.

(** ** The arithmetic of Python floats, as an interface *)

Class Arith (T : Type) : Type := {
  zero : T;
  one : T;
  two : T;
  inf : T;                (* float("inf") *)
  eps : T;                (* np.finfo(float).eps *)
  tol_path : T;           (* 1e-9 *)
  tol_s : T;              (* 1e-6 *)
  rtol : T;               (* np.allclose default rtol, 1e-5 *)
  atol : T;               (* np.allclose default atol, 1e-8 *)
  s_max_default : T;      (* 0.01 *)
  add : T -> T -> T;
  sub : T -> T -> T;
  mul : T -> T -> T;
  div : T -> T -> T;
  absv : T -> T;
  hypot : T -> T -> T;    (* np.hypot *)
  of_nat : nat -> T;      (* an int used as a float *)
  eqb : T -> T -> bool;
  ltb : T -> T -> bool;
  leb : T -> T -> bool
}.

(** The laws of ordered arithmetic that the numbers denoted by floats obey.
    IEEE doubles obey them on values that are not NaN. *)
Class ArithLaws {T : Type} (A : Arith T) : Prop := {
  ltb_trans : forall a b c : T, ltb a b = true -> ltb b c = true -> ltb a c = true;
  ltb_weak : forall a b c : T, ltb a b = true -> ltb c b = false -> ltb a c = true;
  ltb_leb : forall a b : T, ltb a b = true -> leb a b = true;
  leb_refl : forall a : T, leb a a = true;
  leb_trans : forall a b c : T, leb a b = true -> leb b c = true -> leb a c = true;
  leb_total : forall a b : T, leb a b = false -> leb b a = true;
  eqb_refl : forall a : T, eqb a a = true;
  zero_le_one : leb (zero : T) one = true;
  hypot_nonneg : forall x y : T, leb zero (hypot x y) = true;
  add_mono : forall a b : T, leb zero b = true -> leb a (add a b) = true;
  tol_s_pos : ltb (zero : T) tol_s = true
}.

(** ** NumPy and built-in helpers *)

Section Numpy.
Context {T : Type} {A : Arith T}.

(** [np.maximum(a, b)]: [a] when [a >= b] or [a] is NaN, else [b]. *)
Definition np_maximum (a b : T) : T :=
  if leb b a || negb (eqb a a) then a else b.

(** [np.minimum(a, b)]: [a] when [a <= b] or [a] is NaN, else [b]. *)
Definition np_minimum (a b : T) : T :=
  if leb a b || negb (eqb a a) then a else b.

(** [np.clip(t, lo, hi)] is [minimum(maximum(t, lo), hi)]. *)
Definition np_clip (t lo hi : T) : T :=
  np_minimum (np_maximum t lo) hi.

(** Python's built-in [max(a, b)]: [b] when [b > a], else [a]. *)
Definition py_max (a b : T) : T :=
  if ltb a b then b else a.

(** [np.full(n, c)] *)
Definition np_full (n : nat) (c : T) : list T := replicate n c.

(** [np.diff(a)]: [a[1:] - a[:-1]]. *)
Definition np_diff (a : list T) : list T :=
  zip_with sub (drop 1 a) a.

(** [np.cumsum(a)], a left-to-right running sum. *)
Fixpoint cumsum_from (acc : T) (a : list T) : list T :=
  match a with
  | [] => []
  | x :: a' => let acc' := add acc x in acc' :: cumsum_from acc' a'
  end.

Definition np_cumsum (a : list T) : list T :=
  match a with
  | [] => []
  | x :: a' => x :: cumsum_from x a'
  end.

(** [np.sum(a)] on a float array: NumPy's pairwise summation.  Fewer than 8
    terms are added from the left.  Up to 128 terms go through 8 running
    sums over the blocks of 8, which are then added in pairs, and the terms
    after the last full block are added one by one.  A longer array is split
    in two at a multiple of 8; [fuel] bounds the depth of the splitting, and
    the length of the array is enough.  (The sum is then added to the
    initial 0, which changes nothing but the sign of a zero.) *)
Fixpoint add_blocks (k : nat) (r rest : list T) : list T :=
  match k with
  | O => r
  | S k' => add_blocks k' (zip_with add r (take 8 rest)) (drop 8 rest)
  end.

Definition block_sum (a : list T) : T :=
  let n := length a in
  let r := add_blocks (n / 8 - 1) (take 8 a) (drop 8 a) in
  let r_ i := nth i r zero in
  let res := add (add (add (r_ 0) (r_ 1)) (add (r_ 2) (r_ 3)))
                 (add (add (r_ 4) (r_ 5)) (add (r_ 6) (r_ 7))) in
  fold_left add (drop (n - n mod 8) a) res.

Fixpoint pairwise_sum (fuel : nat) (a : list T) : T :=
  let n := length a in
  if n <? 8 then fold_left add a zero
  else if n <=? 128 then block_sum a
  else
    match fuel with
    | O => zero
    | S fuel' =>
        let n2 := n / 2 - (n / 2) mod 8 in
        add (pairwise_sum fuel' (take n2 a)) (pairwise_sum fuel' (drop n2 a))
    end.

Definition np_sum (a : list T) : T := pairwise_sum (length a) a.

(** [np.linspace(0, 1, n, endpoint=False)]: [arange(n) * (1 / n)]. *)
Definition np_linspace01 (n : nat) : list T :=
  map (fun i => mul (of_nat i) (div one (of_nat n))) (seq 0 n).

(** [np.allclose] on one coordinate and on a point. *)
Definition isclose (a b : T) : bool :=
  leb (absv (sub a b)) (add atol (mul rtol (absv b))).

Definition allclose (p q : T * T) : bool :=
  isclose (fst p) (fst q) && isclose (snd p) (snd q).

(** [np.unique(a, return_index=True)]: the sorted distinct values, each with
    the index of its first occurrence. *)
Fixpoint unique_insert (x : T) (i : nat) (acc : list (T * nat)) : list (T * nat) :=
  match acc with
  | [] => [(x, i)]
  | (y, j) :: rest =>
      if ltb x y then (x, i) :: acc
      else if eqb x y then acc
      else (y, j) :: unique_insert x i rest
  end.

Definition np_unique (a : list T) : list (T * nat) :=
  fold_left (fun acc ix => unique_insert (snd ix) (fst ix) acc)
            (zip (seq 0 (length a)) a) [].

End Numpy.

(** ** Python lists *)

(** [l.insert(i, x)] for [i >= 0]; an index past the end appends. *)
Definition py_insert {X : Type} (i : nat) (x : X) (l : list X) : list X :=
  take i l ++ x :: drop i l.

(** [l.pop(i)] for [i >= 0]: the removed element and the rest, or IndexError. *)
Definition py_pop {X : Type} (i : nat) (l : list X) : result (X * list X) :=
  match l !! i with
  | Some x => Ok (x, delete i l)
  | None => Raise IndexError
  end.

(** ** insert_nearest *)

Section InsertNearest.
Context {T : Type} {A : Arith T}.

Definition point : Type := (T * T)%type.

(** The body of the loop up to [d]: the distance from [new_pt] to its clamped
    projection on the segment from [p1] to [p2]. *)
Definition edge_distance (new_pt p1 p2 : point) : T :=
  let '(x0, y0) := new_pt in
  let '(x1, y1) := p1 in
  let '(x2, y2) := p2 in
  let dx := sub x2 x1 in
  let dy := sub y2 y1 in
  let proj :=
    if eqb dx zero && eqb dy zero then (x1, y1)
    else
      let t := div (add (mul (sub x0 x1) dx) (mul (sub y0 y1) dy))
                   (add (mul dx dx) (mul dy dy)) in
      let t := np_clip t zero one in
      (add x1 (mul t dx), add y1 (mul t dy)) in
  hypot (sub x0 (fst proj)) (sub y0 (snd proj)).

(** [d] at iteration [i]: the segment from [pts[i]] to [pts[i + 1]]. *)
Definition dist_at (pts : list point) (new_pt : point) (i : nat) : T :=
  edge_distance new_pt (nth i pts (zero, zero)) (nth (i + 1) pts (zero, zero)).

(** One iteration on the pair [(min_dist, insert_idx)]. *)
Definition scan_step (pts : list point) (new_pt : point)
    (st : T * nat) (i : nat) : T * nat :=
  let d := dist_at pts new_pt i in
  if ltb d (fst st) then (d, i + 1) else st.

(** [for i in range(len(pts) - 1)] from [(inf, 0)]. *)
Definition scan (pts : list point) (new_pt : point) : T * nat :=
  fold_left (scan_step pts new_pt) (seq 0 (length pts - 1)) (inf, 0).

Definition nearest_index (pts : list point) (new_pt : point) : nat :=
  snd (scan pts new_pt).

Definition insert_nearest (control_pts : list point) (new_pt : point) : list point :=
  py_insert (nearest_index control_pts new_pt) new_pt control_pts.

(** The scan after its first [m] iterations, and what it then holds: no
    candidate yet, or the first edge of least distance among those seen. *)
Definition scan_upto (pts : list point) (p : point) (m : nat) : T * nat :=
  fold_left (scan_step pts p) (seq 0 m) (inf, 0).

Definition scan_inv (pts : list point) (p : point) (m : nat) (st : T * nat) : Prop :=
  (st = (inf, 0) /\ forall j, j < m -> ltb (dist_at pts p j) inf = false)
  \/ exists i, i < m /\ st = (dist_at pts p i, S i)
       /\ (forall j, j < i -> ltb (dist_at pts p i) (dist_at pts p j) = true)
       /\ (forall j, i < j < m -> ltb (dist_at pts p j) (dist_at pts p i) = false).

(** The insertion as the specification words it, for comparison with
    [insert_nearest]: every edge of the closed loop is a candidate, the wrap
    edge from the last point to the first included. *)
Definition spec_dist_at (pts : list point) (new_pt : point) (i : nat) : T :=
  edge_distance new_pt (nth i pts (zero, zero))
    (nth ((i + 1) mod length pts) pts (zero, zero)).

Definition spec_scan_step (pts : list point) (new_pt : point)
    (st : T * nat) (i : nat) : T * nat :=
  let d := spec_dist_at pts new_pt i in
  if ltb d (fst st) then (d, i + 1) else st.

Definition spec_insert_nearest (control_pts : list point) (new_pt : point)
    : list point :=
  py_insert
    (snd (fold_left (spec_scan_step control_pts new_pt)
                    (seq 0 (length control_pts)) (inf, 0)))
    new_pt control_pts.

End InsertNearest.
Arguments point T : clear implicits.

(** ** The two arithmetic instances *)

#[local] Set Warnings "-inexact-float".

(** [np.hypot] on doubles calls the C library's [hypot].  Here: infinity
    when an argument is infinite; otherwise the square root of the sum of
    squares, taken after both arguments are scaled by the power of two that
    brings the larger one into [[1/2, 1)], so that the squares neither
    overflow nor vanish when the result is representable ([frshiftexp] and
    [ldshiftexp] offset the exponent by 2101).  It agrees with
    the C library wherever the scaled sum of squares is exact; elsewhere the
    library's result can differ in the last place. *)
Definition hypot_binary64 (x y : float) : float :=
  let ax := PrimFloat.abs x in
  let ay := PrimFloat.abs y in
  if PrimFloat.eqb ax infinity || PrimFloat.eqb ay infinity then infinity
  else
    let m := if PrimFloat.ltb ax ay then ay else ax in
    if PrimFloat.eqb m 0%float then PrimFloat.add ax ay
    else
      let e := snd (PrimFloat.frshiftexp m) in
      let k := Uint63.sub 4202%uint63 e in
      let sx := PrimFloat.ldshiftexp ax k in
      let sy := PrimFloat.ldshiftexp ay k in
      PrimFloat.ldshiftexp
        (PrimFloat.sqrt (PrimFloat.add (PrimFloat.mul sx sx) (PrimFloat.mul sy sy))) e.

(** IEEE binary64.  The decimal constants are rounded to the nearest double,
    as Python's literals are. *)
#[export] Instance binary64 : Arith float := {|
  zero := 0%float;
  one := 1%float;
  two := 2%float;
  inf := infinity;
  eps := 0x1p-52%float;
  tol_path := 1e-9%float;
  tol_s := 1e-6%float;
  rtol := 1e-5%float;
  atol := 1e-8%float;
  s_max_default := 0.01%float;
  add := PrimFloat.add;
  sub := PrimFloat.sub;
  mul := PrimFloat.mul;
  div := PrimFloat.div;
  absv := PrimFloat.abs;
  hypot := hypot_binary64;
  of_nat := fun n => PrimFloat.of_uint63 (Uint63.of_Z (Z.of_nat n));
  eqb := PrimFloat.eqb;
  ltb := PrimFloat.ltb;
  leb := PrimFloat.leb
|}.

(** Exact rationals, kept in lowest terms.  [hypot] takes the integer square
    root of numerator times denominator, exact on rational squares; [inf] is
    the first power of two beyond the range of doubles. *)
Definition Qhypot (x y : Q) : Q :=
  let q := Qred (x * x + y * y) in
  Z.sqrt (Qnum q * Zpos (Qden q)) # Qden q.

#[export] Instance exactQ : Arith Q := {|
  zero := 0%Q;
  one := 1%Q;
  two := 2%Q;
  inf := inject_Z (2 ^ 1024);
  eps := 1 # (2 ^ 52);
  tol_path := 1 # 1000000000;
  tol_s := 1 # 1000000;
  rtol := 1 # 100000;
  atol := 1 # 100000000;
  s_max_default := 1 # 100;
  add := fun a b => Qred (a + b);
  sub := fun a b => Qred (a - b);
  mul := fun a b => Qred (a * b);
  div := fun a b => Qred (a / b);
  absv := Qabs;
  hypot := Qhypot;
  of_nat := fun n => inject_Z (Z.of_nat n);
  eqb := Qeq_bool;
  ltb := fun a b => negb (Qle_bool b a);
  leb := Qle_bool
|}.

(** ** insert_nearest on list objects

    Python lists are mutable objects.  The store maps the identity of each
    live list to its contents; [copy] allocates, [insert] writes in place. *)

Section ListObjects.
Context {T : Type} {A : Arith T}.

Definition loc : Type := positive.
Definition store : Type := gmap loc (list (point T)).

(** [l.copy()]: a new list object with the same elements. *)
Definition list_copy (l : loc) (h : store) : option (loc * store) :=
  match h !! l with
  | Some pts => let l' := fresh (dom h) in Some (l', <[l' := pts]> h)
  | None => None
  end.

(** [l.insert(i, x)]: the object [l] is updated in place. *)
Definition list_insert (l : loc) (i : nat) (x : point T) (h : store) : option store :=
  match h !! l with
  | Some pts => Some (<[l := py_insert i x pts]> h)
  | None => None
  end.

(** [insert_nearest(control_pts, new_pt)] with [control_pts] a reference:
    [np.array(control_pts)] reads the list, the loop computes [insert_idx],
    then [control_pts.copy()] and [new_ctrl.insert(insert_idx, new_pt)]. *)
Definition insert_nearest_obj (control_pts : loc) (new_pt : point T) (h : store)
    : option (loc * store) :=
  match h !! control_pts with
  | Some pts =>
      let insert_idx := nearest_index pts new_pt in
      match list_copy control_pts h with
      | Some (new_ctrl, h1) =>
          match list_insert new_ctrl insert_idx new_pt h1 with
          | Some h2 => Some (new_ctrl, h2)
          | None => None
          end
      | None => None
      end
  | None => None
  end.

End ListObjects.
Arguments store T : clear implicits.

(** ** spline_sample_closed *)

Section SplineSampler.
Context {T : Type} {A : Arith T}.

(** SciPy's [CubicSpline(t, y, bc_type="periodic")] on one column of data:
    the fitted callable, or the ValueError of its input validation.  With
    [axis=0] the columns of a two-dimensional [y] are fitted one by one over
    the common knots [t]. *)
Variable CubicSpline : list T -> list T -> result (T -> T).

Definition samples : Type := (list T * list T * list T * list T)%type.

Definition xs_of (r : samples) : list T := r.1.1.1.
Definition ys_of (r : samples) : list T := r.1.1.2.
Definition vs_of (r : samples) : list T := r.1.2.
Definition S_of (r : samples) : list T := r.2.

(** [v[-1] = v[0]] when [len(v) > 0]. *)
Definition set_last_to_first (v : list T) : list T :=
  match v with
  | [] => []
  | v0 :: _ => <[length v - 1 := v0]> v
  end.

(** The constant output of the two degenerate branches, at the point
    [(x, y)]. *)
Definition degenerate_samples (x y : T) (num_points : nat)
    (cs_vel : T -> result T) : samples :=
  let xs_sample := np_full num_points x in
  let ys_sample := np_full num_points y in
  let v_val := try_except (cs_vel zero) zero in
  let vs_sample := np_full num_points (np_maximum zero v_val) in
  let S_sample := np_full num_points zero in
  (xs_sample ++ take 1 xs_sample,
   ys_sample ++ take 1 ys_sample,
   vs_sample ++ take 1 vs_sample,
   S_sample ++ take 1 S_sample).

(** The control points with the first appended, unless the last is already
    close to it. *)
Definition pts_for_spline (pts_arr : list (point T)) : list (point T) :=
  match pts_arr, last pts_arr with
  | p0 :: _, Some pl => if allclose p0 pl then pts_arr else pts_arr ++ [p0]
  | _, _ => pts_arr
  end.

(** Cumulative chord length: [concatenate(([0], cumsum(hypot(diff x, diff y))))]. *)
Definition chord_lengths (pts : list (point T)) : list T :=
  zero :: np_cumsum (zip_with hypot (np_diff (map fst pts)) (np_diff (map snd pts))).

Definition total_path_length (pts_arr : list (point T)) : T :=
  default zero (last (chord_lengths (pts_for_spline pts_arr))).

Definition t_norm_path (pts_arr : list (point T)) : list T :=
  map (fun t => div t (total_path_length pts_arr))
      (chord_lengths (pts_for_spline pts_arr)).

(** The velocity column of [y_ctrl]: the source evaluated at the knots
    scaled by [s_max], clamped, and closed. *)
Definition v_final_for_y_ctrl (control_pts : list (point T))
    (cs_vel : T -> result T) (s_max : T) : result (list T) :=
  let s_ctrl_path := map (fun t => mul t s_max) (t_norm_path control_pts) in
  let* v_values_at_s_ctrl := rmap cs_vel s_ctrl_path in
  let v_clamped_at_s_ctrl := map (np_maximum zero) v_values_at_s_ctrl in
  Ok (set_last_to_first v_clamped_at_s_ctrl).

(** [cs_all = CubicSpline(t_norm_path, y_ctrl, bc_type="periodic", axis=0)],
    column by column. *)
Definition cs_all_fit (control_pts : list (point T)) (v : list T)
    : result ((T -> T) * (T -> T) * (T -> T)) :=
  let pfs := pts_for_spline control_pts in
  let t_norm := t_norm_path control_pts in
  let* cs_x := CubicSpline t_norm (map fst pfs) in
  let* cs_y := CubicSpline t_norm (map snd pfs) in
  let* cs_v := CubicSpline t_norm v in
  Ok (cs_x, cs_y, cs_v).

(** Sampling the fit over one period, closing the arrays, and measuring the
    sampled polyline. *)
Definition sample_period (cs_all : (T -> T) * (T -> T) * (T -> T))
    (num_points : nat) : samples :=
  let '(cs_x, cs_y, cs_v) := cs_all in
  let ts_sample := np_linspace01 num_points in
  let xs_period := map cs_x ts_sample in
  let ys_period := map cs_y ts_sample in
  let vs_period := map (np_maximum zero) (map cs_v ts_sample) in
  let xs := xs_period ++ take 1 xs_period in
  let ys := ys_period ++ take 1 ys_period in
  let vs := vs_period ++ take 1 vs_period in
  let ds_final := zip_with hypot (np_diff xs) (np_diff ys) in
  let S := zero :: np_cumsum ds_final in
  (xs, ys, vs, S).

(** The input does not reach the fit: no control point, one, or a path
    shorter than [1e-9]. *)
Definition degenerate (control_pts : list (point T)) : bool :=
  match control_pts with
  | [] | [_] => true
  | _ => ltb (total_path_length control_pts) tol_path
  end.

Definition spline_sample_closed (control_pts : list (point T)) (num_points : nat)
    (cs_vel : T -> result T) (s_max : T) : result samples :=
  match control_pts with
  | [] => Ok ([], [], [], [])
  | [p] => Ok (degenerate_samples (fst p) (snd p) num_points cs_vel)
  | p0 :: _ =>
      if ltb (total_path_length control_pts) tol_path then
        Ok (degenerate_samples (fst p0) (snd p0) num_points cs_vel)
      else
        let* v := v_final_for_y_ctrl control_pts cs_vel s_max in
        let* cs_all := cs_all_fit control_pts v in
        Ok (sample_period cs_all num_points)
  end.

(** A sequence that never decreases. *)
Fixpoint nondecreasing (l : list T) : Prop :=
  match l with
  | a :: ((b :: _) as l') => leb a b = true /\ nondecreasing l'
  | _ => True
  end.

(** The output contract of the sampler for [num_points] samples: four arrays
    of length [num_points + 1]; equal first and last entries of x, y and
    velocity; arc length starting at zero and never decreasing; velocities
    not below zero. *)
Definition output_contract (num_points : nat) (r : samples) : Prop :=
  (length (xs_of r) = num_points + 1 /\ length (ys_of r) = num_points + 1
   /\ length (vs_of r) = num_points + 1 /\ length (S_of r) = num_points + 1)
  /\ (head (xs_of r) = last (xs_of r) /\ head (ys_of r) = last (ys_of r)
      /\ head (vs_of r) = last (vs_of r))
  /\ head (S_of r) = Some zero
  /\ nondecreasing (S_of r)
  /\ Forall (fun v => leb zero v = true) (vs_of r).

End SplineSampler.
Arguments samples T : clear implicits.

(** ** The velocity profile: DraggableVelocityScatter and update_spline *)

Section VelocityProfile.
Context {T : Type} {A : Arith T}.

(** SciPy's periodic [CubicSpline], as in the sampler. *)
Variable CubicSpline : list T -> list T -> result (T -> T).
(** SciPy's [interp1d(x, y, kind="linear", fill_value="extrapolate")]. *)
Variable interp1d : list T -> list T -> T -> T.
(** NumPy's float remainder, [a % b]. *)
Variable np_mod : T -> T -> T.
(** [self.cs_vel_initial], the spline fitted to the loaded waypoints. *)
Variable cs_vel_initial : T -> T.

(** The two arrays held by a DraggableVelocityScatter.  Both are arrays of
    floats, as the interpolants and [np.maximum(0, .)] on floats return
    them; an array of another element type, which a write would convert to,
    is outside this model. *)
Record vel_scatter : Type := VelScatter {
  s_coords : list T;
  v_coords : list T
}.

(** [update_positions(s_coords, v_coords)], with [is_periodic] true as the
    editor constructs it. *)
Definition update_positions (s v : list T) : vel_scatter :=
  VelScatter s (if 1 <? length v then set_last_to_first v else v).

(** [mouseMoveEvent] while a point is dragged: the writes to [v_coords].  An
    index out of range raises IndexError at the first write and leaves the
    array as it was. *)
Definition drag (v : list T) (dragIndex : nat) (y : T) : list T :=
  let new_v := py_max zero y in
  let v1 := <[dragIndex := new_v]> v in
  if 1 <? length v1 then
    if dragIndex =? 0 then <[length v1 - 1 := nth 0 v1 zero]> v1
    else if dragIndex =? length v1 - 1 then <[0 := nth (length v1 - 1) v1 zero]> v1
    else v1
  else v1.

Definition mouseMoveEvent (dv : vel_scatter) (dragIndex : nat) (y : T) : vel_scatter :=
  VelScatter (s_coords dv) (drag (v_coords dv) dragIndex y).

(** [_get_arc_lengths_for_path_ctrl_pts] *)
Definition get_arc_lengths_for_path_ctrl_pts (path_ctrl_pts : list (point T)) : list T :=
  match path_ctrl_pts with
  | [] => []
  | [_] => [zero]
  | p0 :: _ =>
      let closed_pts := path_ctrl_pts ++ [p0] in
      let dist := zip_with hypot (np_diff (map fst closed_pts))
                                 (np_diff (map snd closed_pts)) in
      zero :: np_cumsum (take (length dist - 1) dist)
  end.

(** [self.s_max] as [update_spline] sets it: the length of the closed loop. *)
Definition loop_length (ctrl_pts : list (point T)) : T :=
  match ctrl_pts with
  | [] => s_max_default
  | [_] => zero
  | p0 :: _ =>
      let closed_path_pts := ctrl_pts ++ [p0] in
      np_sum (zip_with hypot (np_diff (map fst closed_path_pts))
                             (np_diff (map snd closed_path_pts)))
  end.

(** [s_max if s_max > 1e-6 else 1.0] *)
Definition safe_s_max (s_max : T) : T :=
  if ltb tol_s s_max then s_max else one.

Definition last_or_zero (l : list T) : T := default zero (last l).

(** The periodically extended interpolation domain and its values. *)
Definition s_interp_domain (current_s unique_s : list T) : list T :=
  [ if 2 <? length unique_s
    then sub (nth 0 unique_s zero)
             (sub (last_or_zero current_s) (nth (length unique_s - 2) unique_s zero))
    else sub (nth 0 unique_s zero) one ]
  ++ unique_s
  ++ [ if 1 <? length unique_s
       then add (last_or_zero unique_s) (sub (nth 1 unique_s zero) (nth 0 unique_s zero))
       else add (last_or_zero unique_s) one ].

Definition v_interp_values (unique_v : list T) : list T :=
  [nth 0 unique_v zero] ++ unique_v ++ [nth 0 unique_v zero].

(** The query positions: [norm_s_new * (s_coords[-1] if len(s_coords) > 0 else 1.0)]. *)
Definition s_to_sample_at (new_s : list T) (s_max : T) (current_s : list T) : list T :=
  map (fun n => mul n (default one (last current_s)))
      (map (fun s => div s (safe_s_max s_max)) new_s).

(** [new_v_vel_ctrl] before it is clamped: the branches of [update_spline]
    on the old samples [(current_s, current_v)]. *)
Definition resample_velocities (new_s : list T) (s_max : T)
    (current_s current_v : list T) : list T :=
  if (1 <? length current_s) && ltb zero (last_or_zero current_s) then
    let u := np_unique current_s in
    let unique_s := map fst u in
    let unique_v := map (fun ix => nth (snd ix) current_v zero) u in
    if 1 <? length unique_s then
      let interp_func :=
        interp1d (s_interp_domain current_s unique_s) (v_interp_values unique_v) in
      if ltb tol_s (last_or_zero current_s) then
        map interp_func (s_to_sample_at new_s s_max current_s)
      else
        map (fun _ => match current_v with
                      | v0 :: _ => v0
                      | [] => cs_vel_initial zero
                      end) new_s
    else if length unique_s =? 1 then
      map (fun _ => nth 0 unique_v zero) new_s
    else
      map (fun s => cs_vel_initial (np_mod s (safe_s_max s_max))) new_s
  else if length current_s =? 1 then
    map (fun _ => nth 0 current_v zero) new_s
  else
    map (fun s => cs_vel_initial (np_mod s (safe_s_max s_max))) new_s.

(** The velocity part of [update_spline(ctrl_pts)]: the new scatter and the
    refitted velocity source, or the ValueError of the refit, raised before
    [update_positions] is reached. *)
Definition update_spline_velocity (ctrl_pts : list (point T)) (dv : vel_scatter)
    : result (vel_scatter * (T -> T)) :=
  let new_s := get_arc_lengths_for_path_ctrl_pts ctrl_pts in
  let s_max := loop_length ctrl_pts in
  match ctrl_pts with
  | [] => Ok (update_positions [] [], fun _ => zero)
  | _ :: _ =>
      let new_v := resample_velocities new_s s_max (s_coords dv) (v_coords dv) in
      let new_v := map (np_maximum zero) new_v in
      if 1 <? length new_s then
        let new_v := set_last_to_first new_v in
        let* cs := CubicSpline new_s new_v in
        Ok (update_positions new_s new_v, cs)
      else if length new_s =? 1 then
        Ok (update_positions new_s new_v, fun _ => nth 0 new_v zero)
      else
        Ok (update_positions new_s new_v, fun _ => zero)
  end.

(** The scatter after [update_spline] has run or has raised. *)
Definition after_update_spline (ctrl_pts : list (point T)) (dv : vel_scatter)
    : vel_scatter :=
  match update_spline_velocity ctrl_pts dv with
  | Ok (dv', _) => dv'
  | Raise _ => dv
  end.

(** The reparametrisation as the specification words it, for comparison
    with [resample_velocities]: with two or more distinct old samples, always
    the interpolant over the extended domain, queried at
    [(new_s / new_total_length) * old_total_length]. *)
Definition spec_reparametrize_to (new_s : list T) (new_total : T)
    (current_s current_v : list T) : list T :=
  let u := np_unique current_s in
  let unique_s := map fst u in
  let unique_v := map (fun ix => nth (snd ix) current_v zero) u in
  map (fun s =>
         interp1d (s_interp_domain current_s unique_s) (v_interp_values unique_v)
                  (mul (div s new_total) (last_or_zero current_s)))
      new_s.

(** The invariant of the velocity control points: closed, and not below
    zero. *)
Definition periodic_nonneg (v : list T) : Prop :=
  head v = last v /\ Forall (fun x => leb zero x = true) v.

(** The velocity profiles the editor can hold: the one left by a completed
    [update_spline], then any sequence of drags and further updates. *)
Inductive reachable : vel_scatter -> Prop :=
| reach_update (ctrl_pts : list (point T)) (dv0 dv : vel_scatter) (cs : T -> T) :
    update_spline_velocity ctrl_pts dv0 = Ok (dv, cs) ->
    reachable dv
| reach_drag (dv : vel_scatter) (dragIndex : nat) (y : T) :
    reachable dv ->
    reachable (mouseMoveEvent dv dragIndex y)
| reach_update_again (ctrl_pts : list (point T)) (dv : vel_scatter) :
    reachable dv ->
    reachable (after_update_spline ctrl_pts dv).

End VelocityProfile.
Arguments vel_scatter T : clear implicits.
Arguments VelScatter {T} s_coords v_coords.

(** ** save_csv: curvature *)

Section Curvature.
Context {T : Type} {A : Arith T}.

(** [x ** 1.5] *)
Variable pow15 : T -> T.

(** [np.gradient(f, edge_order=2)] with unit spacing; it needs three samples. *)
Definition np_gradient (f : list T) : result (list T) :=
  let n := length f in
  if n <? 3 then Raise ValueError
  else
    let half := div one two in
    let c15 := div (add two one) two in
    let at_ i := nth i f zero in
    let first := add (add (mul (sub zero c15) (at_ 0)) (mul two (at_ 1)))
                     (mul (sub zero half) (at_ 2)) in
    let inner := map (fun i => div (sub (at_ (i + 1)) (at_ (i - 1))) two)
                     (seq 1 (n - 2)) in
    let last_ := add (add (mul half (at_ (n - 3))) (mul (sub zero two) (at_ (n - 2))))
                     (mul c15 (at_ (n - 1))) in
    Ok (first :: inner ++ [last_]).

(** [denom[denom == 0] = np.finfo(float).eps] *)
Definition guard_denom (denom : list T) : list T :=
  map (fun d => if eqb d zero then eps else d) denom.

Definition curvature_denom (dx_dt dy_dt : list T) : list T :=
  guard_denom (map pow15 (zip_with add (zip_with mul dx_dt dx_dt)
                                       (zip_with mul dy_dt dy_dt))).

(** [kappa] of [save_csv], from the sampled [x_np] and [y_np]. *)
Definition curvature (x_np y_np : list T) : result (list T) :=
  let ext (a : list T) := drop (length a - 2) a ++ a ++ take 2 a in
  let x_ext := ext x_np in
  let y_ext := ext y_np in
  let* dx_dt := np_gradient x_ext in
  let* dy_dt := np_gradient y_ext in
  let* d2x := np_gradient dx_dt in
  let* d2y := np_gradient dy_dt in
  let denom := curvature_denom dx_dt dy_dt in
  let kappa_full :=
    zip_with div (zip_with sub (zip_with mul dx_dt d2y) (zip_with mul d2x dy_dt))
             denom in
  Ok (take (length kappa_full - 4) (drop 2 kappa_full)).

(** The substituted value as the specification words it: positive, with no
    positive value below it. *)
Definition spec_smallest_positive (e : T) : Prop :=
  ltb zero e = true /\ forall x : T, ltb zero x = true -> leb e x = true.

End Curvature.

(** ** Reference interpolants

    Stand-ins for SciPy's interpolants, used to run the model on concrete
    inputs.  [interp_linear] is piecewise linear with linear extrapolation, as
    [interp1d(kind="linear", fill_value="extrapolate")]: the segment is the
    one ending at the first knot that is not below the query.
    [periodic_spline] applies the input validation of a periodic
    [CubicSpline] (two or more strictly increasing knots, as many values,
    first value equal to the last) and then interpolates linearly where
    SciPy fits cubics. *)

Section ReferenceInterpolants.
Context {T : Type} {A : Arith T}.

Fixpoint interp_linear (xs ys : list T) (q : T) : T :=
  match xs, ys with
  | x0 :: ((x1 :: xs'') as xs'), y0 :: ((y1 :: _) as ys') =>
      if leb q x1 || (length xs'' =? 0)
      then add (mul (div (sub y1 y0) (sub x1 x0)) (sub q x0)) y0
      else interp_linear xs' ys' q
  | _, y0 :: _ => y0
  | _, _ => zero
  end.

Fixpoint strictly_increasing (xs : list T) : bool :=
  match xs with
  | x0 :: ((x1 :: _) as xs') => ltb x0 x1 && strictly_increasing xs'
  | _ => true
  end.

Definition periodic_spline (t y : list T) : result (T -> T) :=
  if (2 <=? length t) && (length t =? length y) && strictly_increasing t
     && eqb (nth 0 y zero) (last_or_zero y)
  then Ok (interp_linear t y)
  else Raise ValueError.

End ReferenceInterpolants.


(** ** Example inputs *)

(** An 8 by 6 rectangle, and a point 4 to the left of the middle of its
    closing edge. *)
Definition rect_pts : list (point float) := [(0, 0); (8, 0); (8, 6); (0, 6)]%float.
Definition rect_new_pt : point float := (-4, 3)%float.

Definition rect_ptsQ : list (point Q) := [(0, 0); (8, 0); (8, 6); (0, 6)]%Q.
Definition rect_new_ptQ : point Q := (-4 # 1, 3)%Q.

(** A store with one list object, the rectangle. *)
Definition rect_store : store Q := {[1%positive := rect_ptsQ]}.

(** One control point; a segment with legs 3 and 4; the same segment with
    its first point repeated. *)
Definition single_pt : list (point float) := [(1, 2)]%float.
Definition segment_pts : list (point float) := [(0, 0); (3, 4)]%float.
Definition repeated_pts : list (point float) := [(0, 0); (0, 0); (3, 4)]%float.
Definition coincident_ptsQ : list (point Q) := [(1, 2); (1, 2)]%Q.

(** Velocity sources: constant, and one that cannot be evaluated. *)
Definition const_vel {T : Type} (c : T) : T -> result T := fun _ => Ok c.
Definition failing_vel {T : Type} (e : exn) : T -> result T := fun _ => Raise e.

(** An old velocity profile on the rectangle, and the rectangle with a fifth
    control point. *)
Definition rect_profileQ : vel_scatter Q :=
  VelScatter [0; 8; 14; 22]%Q [5; 6; 9; 5]%Q.
Definition pentagon_ptsQ : list (point Q) := [(0, 0); (8, 0); (8, 6); (4, 9); (0, 6)]%Q.
Definition const_initial : Q -> Q := fun _ => 5%Q.
Definition Qmod (a b : Q) : Q := Qred (a - inject_Z (Qfloor (a / b)) * b).

(** A closed profile whose whole extent is half a micrometre. *)
Definition tiny_s : list Q := [0; 1 # 4000000; 1 # 2000000]%Q.
Definition tiny_v : list Q := [3; 7; 3]%Q.

(** A stand-in for [x ** 1.5] on doubles: [x * sqrt x], exact at 0 and at
    the squares used below; C's [pow] can differ from it in the last place. *)
Definition pow15_binary64 (x : float) : float := PrimFloat.mul x (PrimFloat.sqrt x).

(** ** The rest of the editor: control points from samples, display
    sampling, velocity reset, and the exported table *)

Section Editor.
Context {T : Type} {A : Arith T}.

(** SciPy's periodic [CubicSpline], as in the sampler. *)
Variable CubicSpline : list T -> list T -> result (T -> T).

(** [list(zip(xs[:-1], ys[:-1]))] in [__init__] and [on_slider_change]. *)
Definition ctrl_pts_of_samples (r : samples T) : list (point T) :=
  zip (take (length (xs_of r) - 1) (xs_of r))
      (take (length (ys_of r) - 1) (ys_of r)).

(** [on_slider_change(value)]: the new control points, sampled from the
    static waypoints with the initial velocity spline, which is a fitted
    object and raises nothing. *)
Definition on_slider_change (static_pts : list (point T)) (value : nat)
    (cs_vel_initial : T -> T) (s_max : T) : result (list (point T)) :=
  let* r := spline_sample_closed CubicSpline static_pts value
              (fun s => Ok (cs_vel_initial s)) s_max in
  Ok (ctrl_pts_of_samples r).

(** The [if / elif / else] that builds [self.cs_vel_current] from the
    velocity control points, as [handle_velocity_drag] has it. *)
Definition velocity_source (s_coords v_coords : list T) : result (T -> T) :=
  if 1 <? length s_coords then
    CubicSpline s_coords (set_last_to_first v_coords)
  else if length s_coords =? 1 then
    Ok (fun _ => nth 0 v_coords zero)
  else
    Ok (fun _ => zero).

(** The sampling for display: [max(200, len(ctrl_pts) * 10)] points. *)
Definition display_samples (ctrl_pts : list (point T)) (cs_vel_current : T -> T)
    (s_max : T) : result (samples T) :=
  spline_sample_closed CubicSpline ctrl_pts (max 200 (length ctrl_pts * 10))
    (fun s => Ok (cs_vel_current s)) s_max.

(** [handle_velocity_drag(s_coords, v_coords)]: the refitted velocity source
    and the samples it hands to the plots. *)
Definition handle_velocity_drag (ctrl_pts : list (point T)) (s_max : T)
    (s_coords v_coords : list T) : result ((T -> T) * samples T) :=
  let* cs := velocity_source s_coords v_coords in
  let* r := display_samples ctrl_pts cs s_max in
  Ok (cs, r).

(** [np.argmin(a)], as NumPy's kernel scans a float array: the running
    minimum [mp] is replaced when [not (x >= mp)]; a NaN counts as least and
    ends the scan; ValueError on an empty array. *)
Fixpoint argmin_scan (mp : T) (min_ind i : nat) (l : list T) : nat :=
  match l with
  | [] => min_ind
  | x :: l' =>
      if leb mp x then argmin_scan mp min_ind (S i) l'
      else if eqb x x then argmin_scan x i (S i) l'
      else i
  end.

Definition np_argmin (a : list T) : result nat :=
  match a with
  | [] => Raise ValueError
  | x :: a' => Ok (if eqb x x then argmin_scan x 0 1 a' else 0)
  end.

(** [np.hypot(static_arr[:, 0] - x, static_arr[:, 1] - y)]: the distances
    from [(x, y)] to the static waypoints. *)
Definition static_dists (static_pts : list (point T)) (p : point T) : list T :=
  map (fun sp => hypot (sub (fst sp) (fst p)) (sub (snd sp) (snd p))) static_pts.

(** One iteration of the loop of [reset_velocity_profile]:
    [v_orig[int(np.argmin(dists))]].  With no static waypoint [static_arr]
    has one axis and [static_arr[:, 0]] raises IndexError. *)
Definition nearest_static_velocity (static_pts : list (point T)) (v_orig : list T)
    (p : point T) : result T :=
  if length static_pts =? 0 then Raise IndexError
  else
    let* idx := np_argmin (static_dists static_pts p) in
    match v_orig !! idx with
    | Some v => Ok v
    | None => Raise IndexError
    end.

(** The velocity part of [reset_velocity_profile], up to the call of
    [update_positions]: the new scatter and velocity source, or the exception
    raised before [update_positions] is reached.  The sampling for display
    that follows is in [reset_velocity_profile_display]. *)
Definition reset_velocity_profile (static_pts : list (point T)) (v_orig : list T)
    (ctrl_pts : list (point T)) : result (vel_scatter T * (T -> T)) :=
  let s_ctrl := get_arc_lengths_for_path_ctrl_pts ctrl_pts in
  let* v_new := rmap (nearest_static_velocity static_pts v_orig) ctrl_pts in
  let v_new := map (np_maximum zero) v_new in
  if 1 <? length s_ctrl then
    let v_new := set_last_to_first v_new in
    let* cs := CubicSpline s_ctrl v_new in
    Ok (update_positions s_ctrl v_new, cs)
  else if length s_ctrl =? 1 then
    Ok (update_positions s_ctrl v_new, fun _ => nth 0 v_new zero)
  else
    Ok (update_positions s_ctrl v_new, fun _ => zero).

(** The whole of [reset_velocity_profile]: the velocity part, then the
    sampling of the path for display, with the window's [s_max]. *)
Definition reset_velocity_profile_display (static_pts : list (point T))
    (v_orig : list T) (ctrl_pts : list (point T)) (s_max : T)
    : result (vel_scatter T * (T -> T) * samples T) :=
  let* dc := reset_velocity_profile static_pts v_orig ctrl_pts in
  let* r := display_samples ctrl_pts (snd dc) s_max in
  Ok (fst dc, snd dc, r).

(** The scatter after [reset_velocity_profile] has run or has raised: it is
    the old one when the velocity part raises, and the new one also when the
    sampling for display raises afterwards. *)
Definition after_reset (static_pts : list (point T)) (v_orig : list T)
    (ctrl_pts : list (point T)) (dv : vel_scatter T) : vel_scatter T :=
  match reset_velocity_profile static_pts v_orig ctrl_pts with
  | Ok (dv', _) => dv'
  | Raise _ => dv
  end.

End Editor.

Section ExportTable.
Context {T : Type} {A : Arith T}.
Variable CubicSpline : list T -> list T -> result (T -> T).
(** [x ** 1.5] and [np.arctan2]. *)
Variable pow15 : T -> T.
Variable arctan2 : T -> T -> T.

(** A row of the exported table: [s_m, x_m, y_m, psi_rad, kappa_radpm,
    vx_mps, ax_mps2]. *)
Record row : Type := Row {
  s_m : T; x_m : T; y_m : T; psi_rad : T; kappa_radpm : T; vx_mps : T; ax_mps2 : T
}.

Fixpoint rows_of (S x y psi kappa vx ax : list T) : list row :=
  match S, x, y, psi, kappa, vx, ax with
  | s :: S', a :: x', b :: y', p :: psi', k :: kappa', v :: vx', c :: ax' =>
      Row s a b p k v c :: rows_of S' x' y' psi' kappa' vx' ax'
  | _, _, _, _, _, _, _ => []
  end.

(** [pd.DataFrame({...})] on seven columns: ValueError unless all have one
    length. *)
Definition data_frame (S x y psi kappa vx ax : list T) : result (list row) :=
  if forallb (fun l => length l =? length S) [x; y; psi; kappa; vx; ax]
  then Ok (rows_of S x y psi kappa vx ax)
  else Raise ValueError.

(** The table [df_out] of [save_csv]. *)
Definition save_csv_table (ctrl_pts : list (point T)) (cs_vel_current : T -> T)
    (s_max : T) : result (list row) :=
  let* r := spline_sample_closed CubicSpline ctrl_pts 1000
              (fun s => Ok (cs_vel_current s)) s_max in
  let x_np := xs_of r in
  let y_np := ys_of r in
  let vx_np := vs_of r in
  let* dx := np_gradient x_np in
  let* dy := np_gradient y_np in
  let psi := zip_with arctan2 dy dx in
  let* kappa := curvature pow15 x_np y_np in
  let* ax := np_gradient vx_np in
  data_frame (S_of r) x_np y_np psi kappa vx_np ax.

End ExportTable.
Arguments row T : clear implicits.

(** The velocity profiles the editor can hold when velocity resets are
    counted too: the profile left by a completed [update_spline], then any
    sequence of drags, further updates, and resets. *)
Section EditorStates.
Context {T : Type} {A : Arith T}.
Variable CubicSpline : list T -> list T -> result (T -> T).
Variable interp1d : list T -> list T -> T -> T.
Variable np_mod : T -> T -> T.
Variable cs_vel_initial : T -> T.
Variable static_pts : list (point T).
Variable v_orig : list T.

Inductive profile_reachable : vel_scatter T -> Prop :=
| profile_update (ctrl_pts : list (point T)) (dv0 dv : vel_scatter T) (cs : T -> T) :
    update_spline_velocity CubicSpline interp1d np_mod cs_vel_initial ctrl_pts dv0
      = Ok (dv, cs) ->
    profile_reachable dv
| profile_drag (dv : vel_scatter T) (dragIndex : nat) (y : T) :
    profile_reachable dv ->
    profile_reachable (mouseMoveEvent dv dragIndex y)
| profile_update_again (ctrl_pts : list (point T)) (dv : vel_scatter T) :
    profile_reachable dv ->
    profile_reachable
      (after_update_spline CubicSpline interp1d np_mod cs_vel_initial ctrl_pts dv)
| profile_reset (ctrl_pts : list (point T)) (dv : vel_scatter T) :
    profile_reachable dv ->
    profile_reachable (after_reset CubicSpline static_pts v_orig ctrl_pts dv).

End EditorStates.

(** Static waypoints with their velocities, for the rectangle. *)
Definition static_ptsQ : list (point Q) := [(0, 0); (8, 0); (8, 6); (0, 6)]%Q.
Definition v_origQ : list Q := [3; 4; 6; 2]%Q.

(** ** The window: [MainWindow.__init__] and the whole of [update_spline] *)

(** Whether a computation returned. *)
Definition is_ok {X : Type} (m : result X) : bool :=
  match m with
  | Ok _ => true
  | Raise _ => false
  end.

Section Window.
Context {T : Type} {A : Arith T}.
(** [CubicSpline(..., bc_type="periodic")] and
    [CubicSpline(..., bc_type="not-a-knot")], [interp1d] and NumPy's [%]. *)
Variable CubicSpline : list T -> list T -> result (T -> T).
Variable CubicSpline_not_a_knot : list T -> list T -> result (T -> T).
Variable interp1d : list T -> list T -> T -> T.
Variable np_mod : T -> T -> T.

(** A row of the loaded table, in the columns the editor reads. *)
Record waypoint : Type := Waypoint {
  wp_s_m : T; wp_x_m : T; wp_y_m : T; wp_vx_mps : T
}.

(** What [__init__] leaves in the window. *)
Record window : Type := Window {
  win_static_pts : list (point T);
  win_v_orig : list T;
  win_cs_vel_initial : T -> T;
  win_s_max : T;
  win_ctrl_pts : list (point T);
  win_draggable_vel : vel_scatter T;
  win_cs_vel_current : T -> T
}.

(** [update_spline(ctrl_pts)] up to the display sampling: the new [s_max],
    the velocity scatter, the velocity source and the samples handed to the
    plots. *)
Definition update_spline (cs_vel_initial : T -> T) (ctrl_pts : list (point T))
    (dv : vel_scatter T) : result (T * vel_scatter T * (T -> T) * samples T) :=
  let s_max := loop_length ctrl_pts in
  let* dc := update_spline_velocity CubicSpline interp1d np_mod cs_vel_initial
               ctrl_pts dv in
  let* r := display_samples CubicSpline ctrl_pts (snd dc) s_max in
  Ok (s_max, fst dc, snd dc, r).

(** [v_for_spline]: a copy of [v_orig] whose last entry is set to the first
    when there are two or more rows and the two are not close. *)
Definition v_for_spline (s_orig v_orig : list T) : result (list T) :=
  if 1 <? length s_orig then
    match v_orig, last v_orig with
    | v0 :: _, Some vl =>
        Ok (if isclose v0 vl then v_orig else set_last_to_first v_orig)
    | _, _ => Raise IndexError
    end
  else Ok v_orig.

(** The waypoints used when the table has no row. *)
Definition fallback_static_pts : list (point T) :=
  [(of_nat 0, of_nat 0); (of_nat 1, of_nat 1); (of_nat 2, of_nat 0);
   (of_nat 3, of_nat 1)].

(** [MainWindow.__init__] on the loaded table [df]. *)
Definition init (df : list waypoint) : result window :=
  let static_pts :=
    match df with
    | [] => fallback_static_pts
    | _ :: _ => map (fun w => (wp_x_m w, wp_y_m w)) df
    end in
  let s_orig := map wp_s_m df in
  let v_orig := map wp_vx_mps df in
  let* v_fs := v_for_spline s_orig v_orig in
  let* cs_vel_initial :=
    (if 1 <? length s_orig then CubicSpline s_orig v_fs
     else CubicSpline_not_a_knot s_orig v_fs) in
  let* s_max := match last s_orig with
                | Some s => Ok s
                | None => Raise IndexError
                end in
  let* r := spline_sample_closed CubicSpline static_pts 30
              (fun s => Ok (cs_vel_initial s)) s_max in
  let ctrl_pts := ctrl_pts_of_samples r in
  let s_ctrl_path := get_arc_lengths_for_path_ctrl_pts ctrl_pts in
  let v_ctrl_path_initial :=
    map (fun s => cs_vel_initial (np_mod s s_max)) s_ctrl_path in
  let* v_ctrl_path_initial :=
    (if 1 <? length s_ctrl_path then
       let v := set_last_to_first v_ctrl_path_initial in
       let* _ := CubicSpline s_ctrl_path v in
       Ok v
     else Ok v_ctrl_path_initial) in
  let draggable_vel := VelScatter s_ctrl_path v_ctrl_path_initial in
  let* u := update_spline cs_vel_initial ctrl_pts draggable_vel in
  Ok (Window static_pts v_orig cs_vel_initial (fst (fst (fst u))) ctrl_pts
        (snd (fst (fst u))) (snd (fst u))).

End Window.
Arguments waypoint T : clear implicits.
Arguments window T : clear implicits.

(** ** DraggableScatter: the mouse handlers of the path control points *)

Module DraggableScatter.
Section Handlers.
Context {T : Type} {A : Arith T}.

(** [self.update_callback]: it is handed the positions and may raise. *)
Variable update_callback : list (point T) -> result unit.

Record scatter : Type := Scatter {
  positions : list (point T);
  dragIndex : option nat
}.

(** What Qt hands to a handler: the index stored in the first point under
    the cursor, if any ([pts[0].data()]), whether the left button is the
    event's button or is held, and the cursor in view coordinates. *)
Inductive event : Type :=
| Press (hit : option nat) (left_button : bool)
| Move (left_down : bool) (view_pt : point T)
| Release
| DoubleClick (hit : option nat) (left_button : bool) (view_pt : point T).

Definition mousePressEvent (sc : scatter) (hit : option nat) (left_button : bool)
    : scatter :=
  match hit with
  | Some i => if left_button then Scatter (positions sc) (Some i) else sc
  | None => sc
  end.

(** The handlers that change the points end with
    [self.update_callback(self.positions)]; an exception of the item
    assignment, of [pop] or of the callback leaves the handler. *)
Definition mouseMoveEvent (sc : scatter) (left_down : bool) (view_pt : point T)
    : result scatter :=
  match dragIndex sc with
  | Some i =>
      if left_down then
        if i <? length (positions sc) then
          let ps := <[i := view_pt]> (positions sc) in
          let* _ := update_callback ps in
          Ok (Scatter ps (Some i))
        else Raise IndexError
      else Ok sc
  | None => Ok sc
  end.

Definition mouseReleaseEvent (sc : scatter) : scatter :=
  Scatter (positions sc) None.

Definition mouseDoubleClickEvent (sc : scatter) (hit : option nat)
    (left_button : bool) (view_pt : point T) : result scatter :=
  match hit with
  | Some idx =>
      let* popped := py_pop idx (positions sc) in
      let* _ := update_callback (snd popped) in
      Ok (Scatter (snd popped) (dragIndex sc))
  | None =>
      if left_button then
        let ps := insert_nearest (positions sc) view_pt in
        let* _ := update_callback ps in
        Ok (Scatter ps (dragIndex sc))
      else Ok sc
  end.

Definition handle (sc : scatter) (ev : event) : result scatter :=
  match ev with
  | Press hit left_button => Ok (mousePressEvent sc hit left_button)
  | Move left_down view_pt => mouseMoveEvent sc left_down view_pt
  | Release => Ok (mouseReleaseEvent sc)
  | DoubleClick hit left_button view_pt =>
      mouseDoubleClickEvent sc hit left_button view_pt
  end.

(** A sequence of events, up to the first exception. *)
Fixpoint run (sc : scatter) (evs : list event) : result scatter :=
  match evs with
  | [] => Ok sc
  | ev :: evs' => let* sc' := handle sc ev in run sc' evs'
  end.

(** The drag index, when set, is the index of a point. *)
Definition drag_in_range (sc : scatter) : Prop :=
  match dragIndex sc with
  | Some i => i < length (positions sc)
  | None => True
  end.

(** An event as Qt delivers it: a point under the cursor is one of the
    current points, and a double click on a point arrives when no drag is in
    progress (the release of the first click has been handled). *)
Definition delivered (sc : scatter) (ev : event) : Prop :=
  match ev with
  | Press (Some i) _ => i < length (positions sc)
  | DoubleClick (Some i) _ _ => i < length (positions sc) /\ dragIndex sc = None
  | _ => True
  end.

Fixpoint delivered_all (sc : scatter) (evs : list event) : Prop :=
  match evs with
  | [] => True
  | ev :: evs' =>
      delivered sc ev
      /\ match handle sc ev with
         | Ok sc' => delivered_all sc' evs'
         | Raise _ => True
         end
  end.

(** The double clicks that remove a point, and those that add one. *)
Definition is_remove (ev : event) : bool :=
  match ev with
  | DoubleClick (Some _) _ _ => true
  | _ => false
  end.

Definition is_insert (ev : event) : bool :=
  match ev with
  | DoubleClick None true _ => true
  | _ => false
  end.

Definition removes (evs : list event) : nat :=
  foldr (fun ev n => if is_remove ev then S n else n) 0 evs.

Definition inserts (evs : list event) : nat :=
  foldr (fun ev n => if is_insert ev then S n else n) 0 evs.

End Handlers.
Arguments scatter T : clear implicits.
Arguments event T : clear implicits.
End DraggableScatter.

(** ** The path of the saved file *)

From Stdlib Require String Ascii.

Section SavePath.
Import String.
#[local] Open Scope string_scope.

(** [s.replace(old, new)] for a non-empty [old]: every occurrence of [old],
    found from the left and not overlapping an earlier one, is replaced.
    [skip] counts the characters of a replaced occurrence still to pass. *)
Fixpoint replace_from (old new : string) (skip : nat) (s : string) : string :=
  match s with
  | EmptyString => EmptyString
  | String c s' =>
      match skip with
      | S k => replace_from old new k s'
      | O =>
          if prefix old s
          then new ++ replace_from old new (String.length old - 1) s'
          else String c (replace_from old new 0 s')
      end
  end.

Definition py_replace (old new s : string) : string := replace_from old new 0 s.

(** [new_csv_path] of [save_csv]. *)
Definition new_csv_path (csv_path : string) : string :=
  py_replace ".csv" "_modified.csv" csv_path.

(** [old in s] *)
Fixpoint py_in (old s : string) : bool :=
  match s with
  | EmptyString => prefix old s
  | String _ s' => prefix old s || py_in old s'
  end.

(** The default path of the editor. *)
Definition default_csv_path : string := "../traj_examples/new_loc.csv".

End SavePath.

(** A table of four rows around the rectangle. *)
Definition rect_dfQ : list (waypoint Q) :=
  [Waypoint 0 0 0 3; Waypoint 8 8 0 4; Waypoint 14 8 6 6; Waypoint 20 0 6 2]%Q.
(** * Properties *)

(** ** Exact rational arithmetic obeys the laws *)

Lemma Qltb_lt (a b : Q) : negb (Qle_bool b a) = true <-> (a < b)%Q.
Proof.
  rewrite negb_true_iff. split.
  - intros H. apply Qnot_le_lt. intros Hle.
    apply Qle_bool_iff in Hle. congruence.
  - intros H. destruct (Qle_bool b a) eqn:E; [|done].
    apply Qle_bool_iff in E. exfalso. eapply Qlt_not_le; eauto.
Qed.

Lemma Qleb_false (a b : Q) : Qle_bool a b = false -> (b < a)%Q.
Proof.
  intros H. apply Qnot_le_lt. intros Hle.
  apply Qle_bool_iff in Hle. congruence.
Qed.

Lemma Qhypot_nonneg (x y : Q) : (0 <= Qhypot x y)%Q.
Proof.
  unfold Qhypot, Qle. simpl. rewrite Z.mul_1_r.
  apply Z.sqrt_nonneg.
Qed.

Lemma exactQ_laws : ArithLaws exactQ.
Proof.
  split; simpl.
  - intros a b c Hab Hbc. apply Qltb_lt in Hab, Hbc. apply Qltb_lt.
    eapply Qlt_trans; eauto.
  - intros a b c Hab Hcb. apply Qltb_lt in Hab. apply Qltb_lt.
    destruct (Qle_bool b c) eqn:E.
    + apply Qle_bool_iff in E. eapply Qlt_le_trans; eauto.
    + simpl in Hcb. discriminate.
  - intros a b Hab. apply Qltb_lt in Hab. apply Qle_bool_iff.
    by apply Qlt_le_weak.
  - intros a. apply Qle_bool_iff. apply Qle_refl.
  - intros a b c Hab Hbc. apply Qle_bool_iff in Hab, Hbc. apply Qle_bool_iff.
    eapply Qle_trans; eauto.
  - intros a b Hab. apply Qleb_false in Hab. apply Qle_bool_iff.
    by apply Qlt_le_weak.
  - intros a. apply Qeq_bool_iff. reflexivity.
  - done.
  - intros x y. apply Qle_bool_iff. apply Qhypot_nonneg.
  - intros a b Hb. apply Qle_bool_iff in Hb. apply Qle_bool_iff.
    rewrite Qred_correct.
    rewrite <- (Qplus_0_r a) at 1. apply Qplus_le_compat; [apply Qle_refl | done].
  - done.
Qed.

(** ** The library models on small inputs *)

Example np_unique_sorts_and_keeps_first :
  np_unique [0; 8; 8; 3; 0; 22]%Q
  = [(0%Q, 0%nat); (3%Q, 3%nat); (8%Q, 1%nat); (22%Q, 5%nat)].
Proof. vm_compute. reflexivity. Qed.

Example interp_linear_between_and_beyond :
  map (interp_linear [-1; 0; 1]%Q [3; 3; 7]%Q) [-2; 1 # 2; 2]%Q = [3; 5; 11]%Q.
Proof. vm_compute. reflexivity. Qed.

Example np_gradient_of_squares :
  np_gradient [0; 1; 4; 9]%Q = Ok [0; 2; 4; 6]%Q.
Proof. vm_compute. reflexivity. Qed.

Example np_gradient_needs_three : np_gradient [0; 1]%Q = Raise ValueError.
Proof. reflexivity. Qed.

Example np_clip_clamps :
  map (fun t => np_clip t zero one) [-1 # 2; 1 # 3; 3 # 2]%Q = [0; 1 # 3; 1]%Q.
Proof. vm_compute. reflexivity. Qed.

Example get_arc_lengths_rectangle :
  get_arc_lengths_for_path_ctrl_pts rect_ptsQ = [0; 8; 14; 22]%Q /\ loop_length rect_ptsQ = 28%Q.
Proof. split; vm_compute; reflexivity. Qed.

Example sample_rectangle :
  exists S : list Q,
    spline_sample_closed periodic_spline rect_ptsQ 4 (const_vel 5%Q) 28%Q
    = Ok ([0; 7; 8; 1; 0], [0; 0; 6; 6; 0], [5; 5; 5; 5; 5], S)%Q.
Proof. eexists. vm_compute. reflexivity. Qed.

(** Exporting a loop that has collapsed to one point: every denominator is
    zero and is replaced, and every curvature is zero. *)
Example curvature_of_a_collapsed_loop :
  curvature pow15_binary64 [1; 1; 1]%float [2; 2; 2]%float = Ok [0; 0; 0]%float.
Proof. vm_compute. reflexivity. Qed.

(** ** Python list operations *)

Lemma py_insert_length {X : Type} (i : nat) (x : X) (l : list X) :
  length (py_insert i x l) = S (length l).
Proof.
  unfold py_insert. rewrite length_app. simpl.
  rewrite length_take, length_drop. lia.
Qed.

Lemma py_pop_insert {X : Type} (i : nat) (x : X) (l : list X) :
  i <= length l -> py_pop i (py_insert i x l) = Ok (x, l).
Proof.
  intros Hi. unfold py_pop, py_insert.
  assert (Hlen : length (take i l) = i) by (rewrite length_take; lia).
  rewrite lookup_app_r by lia.
  rewrite Hlen, Nat.sub_diag. simpl.
  f_equal. f_equal.
  pose proof (delete_middle (take i l) (drop i l) x) as Hdel.
  rewrite Hlen in Hdel. rewrite Hdel. apply take_drop.
Qed.

(** ** The scan of insert_nearest *)

Section ScanFacts.
Context {T : Type} {A : Arith T}.
Implicit Types (pts : list (point T)) (p : point T).

Lemma scan_upto_S pts p m :
  scan_upto pts p (S m) = scan_step pts p (scan_upto pts p m) m.
Proof.
  unfold scan_upto. rewrite seq_S, fold_left_app. reflexivity.
Qed.

Lemma scan_upto_index_bound pts p m : snd (scan_upto pts p m) <= m.
Proof.
  induction m as [|m IH]; [done|].
  rewrite scan_upto_S. unfold scan_step.
  destruct (ltb _ _); simpl; lia.
Qed.

Lemma nearest_index_bound pts p : nearest_index pts p <= length pts.
Proof.
  unfold nearest_index, scan.
  pose proof (scan_upto_index_bound pts p (length pts - 1)) as H.
  unfold scan_upto in H. lia.
Qed.

Lemma nearest_index_bound_edges pts p : nearest_index pts p <= length pts - 1.
Proof. apply scan_upto_index_bound. Qed.

Context {L : ArithLaws A}.

Lemma scan_upto_inv pts p m : scan_inv pts p m (scan_upto pts p m).
Proof.
  induction m as [|m IH].
  - left. split; [done | intros; lia].
  - rewrite scan_upto_S. unfold scan_step.
    destruct IH as [[-> Hnone] | (i & Hi & -> & Hbefore & Hafter)]; simpl.
    + destruct (ltb (dist_at pts p m) inf) eqn:E.
      * right. exists m. rewrite Nat.add_1_r. repeat split; [lia | | intros; lia].
        intros j Hj. eapply ltb_weak; eauto.
      * left. split; [done|]. intros j Hj.
        destruct (decide (j = m)) as [->|]; [done | apply Hnone; lia].
    + destruct (ltb (dist_at pts p m) (dist_at pts p i)) eqn:E.
      * right. exists m. rewrite Nat.add_1_r. repeat split; [lia | | intros; lia].
        intros j Hj.
        destruct (decide (j < i)) as [Hlt|Hge].
        { eapply ltb_trans; eauto. }
        destruct (decide (j = i)) as [->|Hne]; [done|].
        eapply ltb_weak; eauto. apply Hafter. lia.
      * right. exists i. repeat split; [lia | done |].
        intros j Hj.
        destruct (decide (j = m)) as [->|]; [done | apply Hafter; lia].
Qed.

(** With every edge distance below [inf] and at least one edge, the scan
    selects the first edge of least distance. *)
Lemma nearest_index_first_minimum pts p :
  2 <= length pts ->
  (forall j, j < length pts - 1 -> ltb (dist_at pts p j) inf = true) ->
  exists i, i < length pts - 1 /\ nearest_index pts p = S i
    /\ (forall j, j < i -> ltb (dist_at pts p i) (dist_at pts p j) = true)
    /\ (forall j, i < j < length pts - 1 ->
          ltb (dist_at pts p j) (dist_at pts p i) = false).
Proof.
  intros Hlen Hfin.
  pose proof (scan_upto_inv pts p (length pts - 1)) as Hinv.
  unfold nearest_index, scan. fold (scan_upto pts p (length pts - 1)).
  destruct Hinv as [[_ Hnone] | (i & Hi & -> & Hbefore & Hafter)].
  - specialize (Hnone 0). specialize (Hfin 0).
    rewrite Hfin in Hnone by lia. discriminate Hnone. lia.
  - exists i. by repeat split.
Qed.

(** The clamped parameter lies in the segment's range. *)
Lemma np_clip_unit (t : T) :
  leb zero (np_clip t zero one) = true /\ leb (np_clip t zero one) one = true.
Proof.
  unfold np_clip, np_minimum, np_maximum.
  rewrite !eqb_refl. simpl. rewrite !orb_false_r.
  destruct (leb zero t) eqn:E0.
  - destruct (leb t one) eqn:E1; [done|].
    split; [apply zero_le_one | apply leb_refl].
  - rewrite zero_le_one. split; [apply leb_refl | apply zero_le_one].
Qed.

End ScanFacts.

(** ** insert_nearest *)



(** C1, where the code departs from it: the loop visits the edges between
    consecutive control points only, so the new point is never placed after
    the last control point, whatever its distance to the wrap edge from the
    last point back to the first.  Next to the closing edge of the rectangle
    the wrap edge is the nearest (distance 4 against 5, 12 and 5): the
    insertion the claim describes puts the point at the end, the code puts
    it at index 1, after the start of the first edge. *)
Theorem insert_nearest_ignores_wrap_edge :
  (forall (pts : list (point float)) (p : point float),
      nearest_index pts p <= length pts - 1)
  /\ map (spec_dist_at rect_pts rect_new_pt) [0; 1; 2; 3] = [5; 12; 5; 4]%float
  /\ map (dist_at rect_pts rect_new_pt) [0; 1; 2] = [5; 12; 5]%float
  /\ spec_insert_nearest rect_pts rect_new_pt
     = [(0, 0); (8, 0); (8, 6); (0, 6); (-4, 3)]%float
  /\ insert_nearest rect_pts rect_new_pt
     = [(0, 0); (-4, 3); (8, 0); (8, 6); (0, 6)]%float
  /\ insert_nearest rect_pts rect_new_pt
     <> spec_insert_nearest rect_pts rect_new_pt.
Proof.
  split; [intros pts p; apply nearest_index_bound_edges|].
  repeat split; try (vm_compute; reflexivity).
  vm_compute. intros H. discriminate H.
Qed.

(** C7: removing the element at the index where [insert_nearest] put the
    new point gives back the new point and the original sequence. *)
Theorem insert_nearest_then_pop {T : Type} {A : Arith T}
    (pts : list (point T)) (p : point T) :
  py_pop (nearest_index pts p) (insert_nearest pts p) = Ok (p, pts).
Proof.
  unfold insert_nearest. apply py_pop_insert, nearest_index_bound.
Qed.

(** C10: [insert_nearest] leaves the list object it is given as it was.  The
    result is a list object that did not exist before the call, every object
    of the store keeps its contents, and the new object holds the inserted
    sequence. *)
Theorem insert_nearest_obj_frame {T : Type} {A : Arith T}
    (h : store T) (control_pts : loc) (pts : list (point T)) (p : point T) :
  h !! control_pts = Some pts ->
  exists (new_ctrl : loc) (h' : store T),
    insert_nearest_obj control_pts p h = Some (new_ctrl, h')
    /\ h !! new_ctrl = None
    /\ h' !! new_ctrl = Some (insert_nearest pts p)
    /\ h' !! control_pts = Some pts
    /\ (forall l v, h !! l = Some v -> h' !! l = Some v).
Proof.
  intros Hl. unfold store, loc in *.
  assert (Hfresh : h !! fresh (dom h) = None).
  { apply not_elem_of_dom, is_fresh. }
  exists (fresh (dom h)), (<[fresh (dom h) := insert_nearest pts p]> h).
  assert (Hkeep : forall l v, h !! l = Some v ->
            <[fresh (dom h) := insert_nearest pts p]> h !! l = Some v).
  { intros l v Hv. rewrite lookup_insert_ne; [done|]. congruence. }
  repeat split; [| done | apply lookup_insert_eq | by apply Hkeep | done].
  unfold insert_nearest_obj, list_copy, list_insert, store, loc. rewrite Hl.
  rewrite lookup_insert_eq, insert_insert_eq. reflexivity.
Qed.

Lemma insert_nearest_obj_frame_witness :
  exists (new_ctrl : loc) (h' : store Q),
    insert_nearest_obj 1%positive rect_new_ptQ rect_store = Some (new_ctrl, h')
    /\ rect_store !! new_ctrl = None
    /\ h' !! new_ctrl = Some (insert_nearest rect_ptsQ rect_new_ptQ)
    /\ h' !! 1%positive = Some rect_ptsQ
    /\ (forall l v, rect_store !! l = Some v -> h' !! l = Some v).
Proof.
  apply (insert_nearest_obj_frame rect_store 1%positive rect_ptsQ rect_new_ptQ).
  apply (lookup_singleton_eq (M:=gmap positive)).
Defined.

(** ** Arrays closed by their first entry, and cumulative sums *)

Section ArrayFacts.
Context {T : Type} {A : Arith T}.

Lemma closed_length (l : list T) : length (l ++ take 1 l) = length l + min 1 (length l).
Proof. rewrite length_app, length_take. lia. Qed.

Lemma closed_head_last (l : list T) : head (l ++ take 1 l) = last (l ++ take 1 l).
Proof.
  destruct l as [|a l]; [done|].
  change ((a :: l) ++ take 1 (a :: l)) with ((a :: l) ++ [a]).
  rewrite last_snoc. reflexivity.
Qed.

Lemma closed_Forall (P : T -> Prop) (l : list T) : Forall P l -> Forall P (l ++ take 1 l).
Proof. intros H. apply Forall_app. split; [done | by apply Forall_take]. Qed.

Lemma np_full_length (n : nat) (c : T) : length (np_full n c) = n.
Proof. apply length_replicate. Qed.

Lemma np_full_Forall (P : T -> Prop) (n : nat) (c : T) : P c -> Forall P (np_full n c).
Proof. intros H. by apply Forall_replicate. Qed.

Lemma np_linspace01_length (n : nat) : length (np_linspace01 (T:=T) n) = n.
Proof. unfold np_linspace01. by rewrite length_map, length_seq. Qed.

Lemma np_diff_length (a : list T) : length (np_diff a) = length a - 1.
Proof. unfold np_diff. rewrite length_zip_with, length_drop. lia. Qed.

Lemma cumsum_from_length (acc : T) (a : list T) : length (cumsum_from acc a) = length a.
Proof. revert acc. induction a as [|x a IH]; intros acc; simpl; [done | by rewrite IH]. Qed.

Lemma np_cumsum_length (a : list T) : length (np_cumsum a) = length a.
Proof. destruct a; simpl; [done | by rewrite cumsum_from_length]. Qed.

Lemma nondecreasing_constant (n : nat) (c : T) :
  leb c c = true -> nondecreasing (replicate n c).
Proof.
  intros Hc. induction n as [|n IH]; [done|].
  destruct n; [done|]. simpl in *. by split.
Qed.

Context {L : ArithLaws A}.

Lemma np_maximum_zero_nonneg (v : T) : leb zero (np_maximum zero v) = true.
Proof.
  unfold np_maximum. rewrite eqb_refl. simpl. rewrite orb_false_r.
  destruct (leb v zero) eqn:E; [apply leb_refl | by apply leb_total].
Qed.

Lemma py_max_zero_nonneg (y : T) : leb zero (py_max zero y) = true.
Proof.
  unfold py_max. destruct (ltb zero y) eqn:E; [by apply ltb_leb | apply leb_refl].
Qed.

Lemma cumsum_from_nondecreasing (acc : T) (a : list T) :
  Forall (fun d => leb zero d = true) a -> nondecreasing (acc :: cumsum_from acc a).
Proof.
  revert acc. induction a as [|x a IH]; intros acc Ha; [done|].
  apply Forall_cons in Ha as [Hx Ha]. simpl. split.
  - by apply add_mono.
  - by apply IH.
Qed.

(** Cumulative chord length starts at zero and never decreases. *)
Lemma cumulative_nondecreasing (ds : list T) :
  Forall (fun d => leb zero d = true) ds -> nondecreasing (zero :: np_cumsum ds).
Proof.
  intros Hds. destruct ds as [|d ds]; [done|].
  apply Forall_cons in Hds as [Hd Hds]. simpl. split; [done|].
  by apply cumsum_from_nondecreasing.
Qed.

Lemma hypot_zip_nonneg (a b : list T) :
  Forall (fun d => leb zero d = true) (zip_with hypot a b).
Proof.
  revert b. induction a as [|x a IH]; intros [|y b]; simpl; try constructor.
  - apply hypot_nonneg.
  - apply IH.
Qed.

End ArrayFacts.

(** ** spline_sample_closed *)

Section SamplerFacts.
Context {T : Type} {A : Arith T}.
Variable CubicSpline : list T -> list T -> result (T -> T).
Implicit Types (pts : list (point T)) (cs_vel : T -> result T).

Lemma degenerate_samples_constant (x y : T) (n : nat) cs_vel :
  let r := degenerate_samples x y n cs_vel in
  Forall (eq x) (xs_of r) /\ Forall (eq y) (ys_of r)
  /\ Forall (eq (np_maximum zero (try_except (cs_vel zero) zero))) (vs_of r)
  /\ Forall (eq zero) (S_of r).
Proof.
  unfold degenerate_samples, xs_of, ys_of, vs_of, S_of. simpl.
  repeat split; by apply closed_Forall, np_full_Forall.
Qed.

Lemma degenerate_samples_lengths (x y : T) (n : nat) cs_vel :
  let r := degenerate_samples x y n cs_vel in
  length (xs_of r) = n + min 1 n /\ length (ys_of r) = n + min 1 n
  /\ length (vs_of r) = n + min 1 n /\ length (S_of r) = n + min 1 n.
Proof.
  unfold degenerate_samples, xs_of, ys_of, vs_of, S_of. simpl.
  rewrite !closed_length, !np_full_length. done.
Qed.

Lemma spline_sample_closed_constant_branch (p0 : point T) (rest : list (point T))
    (n : nat) cs_vel (s_max : T) :
  degenerate (p0 :: rest) = true ->
  spline_sample_closed CubicSpline (p0 :: rest) n cs_vel s_max
  = Ok (degenerate_samples (fst p0) (snd p0) n cs_vel).
Proof.
  unfold degenerate, spline_sample_closed.
  destruct rest as [|p1 rest]; [done|]. by intros ->.
Qed.

Lemma spline_sample_closed_fit_branch pts (n : nat) cs_vel (s_max : T) :
  degenerate pts = false ->
  spline_sample_closed CubicSpline pts n cs_vel s_max
  = (let* v := v_final_for_y_ctrl pts cs_vel s_max in
     let* cs_all := cs_all_fit CubicSpline pts v in
     Ok (sample_period cs_all n)).
Proof.
  unfold degenerate, spline_sample_closed.
  destruct pts as [|p0 [|p1 rest]]; [done | done |]. by intros ->.
Qed.

(** The geometry of the fit does not depend on the velocity column. *)
Lemma cs_all_fit_geometry pts (v1 v2 : list T) (f1 f2 : (T -> T) * (T -> T) * (T -> T)) :
  cs_all_fit CubicSpline pts v1 = Ok f1 ->
  cs_all_fit CubicSpline pts v2 = Ok f2 ->
  f1.1 = f2.1.
Proof.
  unfold cs_all_fit.
  destruct (CubicSpline _ (map fst _)) as [cx|]; [|done].
  destruct (CubicSpline _ (map snd _)) as [cy|]; [|done]. simpl.
  destruct (CubicSpline _ v1) as [cv1|]; [|done].
  destruct (CubicSpline _ v2) as [cv2|]; [|done]. simpl.
  by intros [= <-] [= <-].
Qed.

Lemma sample_period_geometry (f1 f2 : (T -> T) * (T -> T) * (T -> T)) (n : nat) :
  f1.1 = f2.1 ->
  xs_of (sample_period f1 n) = xs_of (sample_period f2 n)
  /\ ys_of (sample_period f1 n) = ys_of (sample_period f2 n)
  /\ S_of (sample_period f1 n) = S_of (sample_period f2 n).
Proof.
  destruct f1 as [[cx1 cy1] cv1], f2 as [[cx2 cy2] cv2]. simpl.
  intros [= -> ->]. done.
Qed.

Context {L : ArithLaws A}.

Lemma degenerate_samples_contract (x y : T) (n : nat) cs_vel :
  1 <= n -> output_contract n (degenerate_samples x y n cs_vel).
Proof.
  intros Hn.
  pose proof (degenerate_samples_lengths x y n cs_vel) as Hlen.
  unfold output_contract. cbv zeta in Hlen.
  replace (n + min 1 n) with (n + 1) in Hlen by lia.
  split; [exact Hlen|].
  unfold degenerate_samples, xs_of, ys_of, vs_of, S_of. simpl.
  split; [auto using closed_head_last|].
  destruct n as [|n]; [lia|].
  split; [done|]. split.
  - change (np_full (S n) zero ++ take 1 (np_full (S n) zero))
      with (replicate (S n) (zero : T) ++ [zero]).
    rewrite <- replicate_S_end.
    apply nondecreasing_constant, leb_refl.
  - apply closed_Forall, np_full_Forall, np_maximum_zero_nonneg.
Qed.

Lemma sample_period_contract (cs_all : (T -> T) * (T -> T) * (T -> T)) (n : nat) :
  1 <= n -> output_contract n (sample_period cs_all n).
Proof.
  intros Hn. destruct cs_all as [[cs_x cs_y] cs_v].
  unfold output_contract, sample_period, xs_of, ys_of, vs_of, S_of. simpl.
  repeat split.
  - rewrite closed_length, length_map, np_linspace01_length. lia.
  - rewrite closed_length, length_map, np_linspace01_length. lia.
  - rewrite closed_length, !length_map, np_linspace01_length. lia.
  - rewrite np_cumsum_length, length_zip_with, !np_diff_length, !closed_length,
      !length_map, np_linspace01_length. lia.
  - apply closed_head_last.
  - apply closed_head_last.
  - apply closed_head_last.
  - apply (cumulative_nondecreasing (L:=L)), hypot_zip_nonneg.
  - apply closed_Forall, Forall_map, Forall_true. intros v.
    apply np_maximum_zero_nonneg.
Qed.

End SamplerFacts.

(** C2, where the code departs from it: on the fitted branch (two or more
    control points, path length not below [1e-9]) a velocity source that
    cannot be evaluated makes the sampler raise the source's exception.  The
    two constant branches catch it; this branch does not. *)
Theorem spline_sample_closed_velocity_failure_escapes {T : Type} {A : Arith T}
    (CubicSpline : list T -> list T -> result (T -> T))
    (pts : list (point T)) (num_points : nat) (cs_vel : T -> result T)
    (s_max : T) (e : exn) :
  degenerate pts = false ->
  (forall s : T, cs_vel s = Raise e) ->
  spline_sample_closed CubicSpline pts num_points cs_vel s_max = Raise e.
Proof.
  intros Hdeg Hfail.
  rewrite spline_sample_closed_fit_branch by done.
  unfold v_final_for_y_ctrl, t_norm_path, chord_lengths. simpl.
  by rewrite Hfail.
Qed.

Lemma spline_sample_closed_velocity_failure_escapes_witness :
  degenerate segment_pts = false
  /\ spline_sample_closed periodic_spline segment_pts 4 (failing_vel ValueError) 10%float
     = Raise ValueError.
Proof.
  assert (Hdeg : degenerate segment_pts = false) by (vm_compute; reflexivity).
  split; [exact Hdeg|].
  by apply (spline_sample_closed_velocity_failure_escapes periodic_spline segment_pts
              4 (failing_vel ValueError) 10%float ValueError Hdeg).
Defined.

(** C3, as the code has it: for a non-empty control-point sequence and at
    least one sample, when on the fitted branch the velocity source can be
    evaluated at the knots and the periodic fit succeeds, the sampler returns
    four arrays of length [num_points + 1], with equal first and last entries
    of x, y and velocity, arc length starting at zero and never decreasing,
    and no velocity below zero. *)
Theorem spline_sample_closed_contract {T : Type} {A : Arith T} (L : ArithLaws A)
    (CubicSpline : list T -> list T -> result (T -> T))
    (pts : list (point T)) (num_points : nat) (cs_vel : T -> result T) (s_max : T) :
  pts <> [] ->
  1 <= num_points ->
  (degenerate pts = false ->
   exists v cs_all, v_final_for_y_ctrl pts cs_vel s_max = Ok v
                    /\ cs_all_fit CubicSpline pts v = Ok cs_all) ->
  exists r, spline_sample_closed CubicSpline pts num_points cs_vel s_max = Ok r
            /\ output_contract num_points r.
Proof.
  intros Hne Hn Hfit.
  destruct (degenerate pts) eqn:Hdeg.
  - destruct pts as [|p0 rest]; [done|].
    eexists. split; [by apply spline_sample_closed_constant_branch|].
    by apply degenerate_samples_contract.
  - destruct (Hfit eq_refl) as (v & cs_all & Hv & Hcs).
    exists (sample_period cs_all num_points). split.
    + rewrite spline_sample_closed_fit_branch by done.
      rewrite Hv. simpl. rewrite Hcs. reflexivity.
    + by apply sample_period_contract.
Qed.

Lemma spline_sample_closed_contract_witness :
  exists r, spline_sample_closed periodic_spline rect_ptsQ 4 (const_vel 5%Q) 28%Q = Ok r
            /\ output_contract 4 r.
Proof.
  apply (spline_sample_closed_contract exactQ_laws periodic_spline rect_ptsQ 4
           (const_vel 5%Q) 28%Q).
  - discriminate.
  - lia.
  - intros _. eexists. eexists. split; vm_compute; reflexivity.
Defined.

(** C3, as stated, fails: with [num_points = 0] the four arrays are empty,
    not of length 1; and the sampler returns nothing when the velocity source
    fails on the fitted branch, or when the periodic fit rejects its knots
    (here a repeated control point). *)
Lemma spline_sample_closed_contract_fails :
  spline_sample_closed periodic_spline single_pt 0 (const_vel 5%float) 28%float
    = Ok ([], [], [], [])
  /\ length ([] : list float) <> 0 + 1
  /\ spline_sample_closed periodic_spline segment_pts 4 (failing_vel ValueError) 10%float
     = Raise ValueError
  /\ spline_sample_closed periodic_spline repeated_pts 4 (const_vel 5%float) 10%float
     = Raise ValueError.
Proof. repeat split; try (vm_compute; reflexivity). simpl. lia. Qed.

(** C8: no control point gives four empty arrays.  One control point, or a
    total path length below [1e-9], gives x and y constant at the first
    point, arc length constant at zero, and a constant velocity: the value
    [v] of the source at 0 when [v <= 0] does not hold, 0 when it does, and
    0 when the source fails there.  Under the laws of ordered arithmetic no
    such velocity is below zero. *)
Theorem spline_sample_closed_degenerate {T : Type} {A : Arith T}
    (CubicSpline : list T -> list T -> result (T -> T))
    (num_points : nat) (cs_vel : T -> result T) (s_max : T) :
  spline_sample_closed CubicSpline [] num_points cs_vel s_max = Ok ([], [], [], [])
  /\ (forall (p0 : point T) (rest : list (point T)),
        rest = [] \/ ltb (total_path_length (p0 :: rest)) tol_path = true ->
        exists r,
          spline_sample_closed CubicSpline (p0 :: rest) num_points cs_vel s_max = Ok r
          /\ Forall (eq (fst p0)) (xs_of r)
          /\ Forall (eq (snd p0)) (ys_of r)
          /\ Forall (eq zero) (S_of r)
          /\ length (xs_of r) = num_points + min 1 num_points
          /\ length (ys_of r) = num_points + min 1 num_points
          /\ length (vs_of r) = num_points + min 1 num_points
          /\ length (S_of r) = num_points + min 1 num_points
          /\ (forall e : exn, cs_vel zero = Raise e -> Forall (eq zero) (vs_of r))
          /\ (forall v : T,
                cs_vel zero = Ok v -> eqb (zero : T) zero = true ->
                (leb v zero = false -> Forall (eq v) (vs_of r))
                /\ (leb v zero = true -> Forall (eq zero) (vs_of r)))
          /\ (ArithLaws A -> Forall (fun v => leb zero v = true) (vs_of r))).
Proof.
  split; [done|].
  intros p0 rest Hdeg.
  exists (degenerate_samples (fst p0) (snd p0) num_points cs_vel). split.
  { apply spline_sample_closed_constant_branch.
    unfold degenerate. destruct rest as [|p1 rest]; [done|].
    by destruct Hdeg as [Hnil | ->]. }
  pose proof (degenerate_samples_constant (fst p0) (snd p0) num_points cs_vel)
    as (Hx & Hy & Hv & HS).
  pose proof (degenerate_samples_lengths (fst p0) (snd p0) num_points cs_vel)
    as (Lx & Ly & Lv & LS).
  cbv zeta in Hv.
  do 7 (split; [done|]).
  split; [|split].
  - intros e He. rewrite He in Hv. simpl in Hv.
    unfold np_maximum in Hv. by destruct (_ || _) in Hv.
  - intros v Hv0 Hzero. rewrite Hv0 in Hv. simpl in Hv.
    unfold np_maximum in Hv. rewrite Hzero, orb_false_r in Hv.
    split; intros Hle; by rewrite Hle in Hv.
  - intros L. eapply Forall_impl; [exact Hv|].
    intros v <-. apply np_maximum_zero_nonneg.
Qed.

Lemma spline_sample_closed_degenerate_witness :
  exists r,
    spline_sample_closed periodic_spline coincident_ptsQ 3 (const_vel 5%Q) 28%Q = Ok r
    /\ Forall (eq 1%Q) (xs_of r)
    /\ Forall (eq 2%Q) (ys_of r)
    /\ Forall (eq 0%Q) (S_of r)
    /\ length (vs_of r) = 4
    /\ Forall (eq 5%Q) (vs_of r).
Proof.
  destruct (spline_sample_closed_degenerate periodic_spline 3 (const_vel 5%Q) 28%Q)
    as (_ & Hdeg).
  destruct (Hdeg (1%Q, 2%Q) [(1%Q, 2%Q)]) as (r & Hr & Hx & Hy & HS & _ & _ & Lv & _ & _ & Hv & _).
  { right. vm_compute. reflexivity. }
  exists r. do 5 (split; [done|]).
  apply (Hv 5%Q); reflexivity.
Defined.

(** C9: two runs of the sampler on the same control points and sample count
    return the same x and y arrays, and the same arc length, whatever their
    velocity sources and [s_max]. *)
Theorem spline_sample_closed_geometry {T : Type} {A : Arith T}
    (CubicSpline : list T -> list T -> result (T -> T))
    (pts : list (point T)) (num_points : nat)
    (cs_vel1 cs_vel2 : T -> result T) (s_max1 s_max2 : T) (r1 r2 : samples T) :
  spline_sample_closed CubicSpline pts num_points cs_vel1 s_max1 = Ok r1 ->
  spline_sample_closed CubicSpline pts num_points cs_vel2 s_max2 = Ok r2 ->
  xs_of r1 = xs_of r2 /\ ys_of r1 = ys_of r2 /\ S_of r1 = S_of r2.
Proof.
  destruct (degenerate pts) eqn:Hdeg.
  - destruct pts as [|p0 rest].
    + simpl. by intros [= <-] [= <-].
    + rewrite !spline_sample_closed_constant_branch by done.
      by intros [= <-] [= <-].
  - rewrite !spline_sample_closed_fit_branch by done.
    destruct (v_final_for_y_ctrl pts cs_vel1 s_max1) as [v1|]; [|done].
    destruct (v_final_for_y_ctrl pts cs_vel2 s_max2) as [v2|]; [|done]. simpl.
    destruct (cs_all_fit CubicSpline pts v1) as [f1|] eqn:E1; [|done].
    destruct (cs_all_fit CubicSpline pts v2) as [f2|] eqn:E2; [|done]. simpl.
    intros [= <-] [= <-].
    eapply sample_period_geometry, cs_all_fit_geometry; eauto.
Qed.

Lemma spline_sample_closed_geometry_witness :
  exists r1 r2 : samples Q,
    spline_sample_closed periodic_spline rect_ptsQ 4 (const_vel 5%Q) 28%Q = Ok r1
    /\ spline_sample_closed periodic_spline rect_ptsQ 4 (const_vel 10%Q) 14%Q = Ok r2
    /\ vs_of r1 <> vs_of r2
    /\ xs_of r1 = xs_of r2 /\ ys_of r1 = ys_of r2 /\ S_of r1 = S_of r2.
Proof.
  eexists. eexists.
  split; [vm_compute; reflexivity|].
  split; [vm_compute; reflexivity|].
  split; [vm_compute; discriminate|].
  apply (spline_sample_closed_geometry periodic_spline rect_ptsQ 4
           (const_vel 5%Q) (const_vel 10%Q) 28%Q 14%Q); vm_compute; reflexivity.
Defined.

(** ** The velocity profile *)

Section ProfileFacts.
Context {T : Type} {A : Arith T}.
Variable CubicSpline : list T -> list T -> result (T -> T).
Variable interp1d : list T -> list T -> T -> T.
Variable np_mod : T -> T -> T.
Variable cs_vel_initial : T -> T.
Implicit Types (v : list T) (dv : vel_scatter T).

Lemma nth_lookup_total v (i : nat) (x : T) : v !! i = Some x -> nth i v zero = x.
Proof. intros H. by rewrite (nth_lookup_Some _ _ _ _ H). Qed.

Lemma head_last_short v : length v <= 1 -> head v = last v.
Proof. destruct v as [|a [|b v]]; simpl; [done | done | lia]. Qed.

Lemma set_last_to_first_length v : length (set_last_to_first v) = length v.
Proof. destruct v as [|a v]; [done|]. unfold set_last_to_first. apply length_insert. Qed.

Lemma set_last_to_first_closed v : head (set_last_to_first v) = last (set_last_to_first v).
Proof.
  destruct v as [|a v]; [done|]. unfold set_last_to_first.
  rewrite last_lookup, length_insert, <- Nat.sub_1_r.
  rewrite list_lookup_insert_eq by (simpl; lia).
  destruct v as [|b v]; done.
Qed.

Lemma set_last_to_first_Forall (P : T -> Prop) v :
  Forall P v -> Forall P (set_last_to_first v).
Proof.
  destruct v as [|a v]; [done|]. intros H. unfold set_last_to_first.
  apply Forall_insert; [done|]. by apply Forall_cons in H as [? _].
Qed.

Lemma update_positions_v_length (s v : list T) :
  length (v_coords (update_positions s v)) = length v.
Proof.
  unfold update_positions. simpl.
  destruct (1 <? length v); [apply set_last_to_first_length | done].
Qed.

Lemma drag_length v (i : nat) (y : T) : length (drag v i y) = length v.
Proof.
  unfold drag. rewrite !length_insert.
  repeat case_match; by rewrite ?length_insert.
Qed.

(** The entry written by a drag, its mirror, and the entries left alone. *)
Lemma drag_written v (i : nat) (y : T) :
  i < length v -> drag v i y !! i = Some (py_max zero y).
Proof.
  intros Hi. unfold drag. rewrite !length_insert.
  destruct (1 <? length v) eqn:Hlen;
    [apply Nat.ltb_lt in Hlen | by apply list_lookup_insert_eq].
  destruct (i =? 0) eqn:E0; [apply Nat.eqb_eq in E0; subst i|].
  { rewrite list_lookup_insert_ne by lia. by apply list_lookup_insert_eq. }
  apply Nat.eqb_neq in E0.
  destruct (i =? length v - 1) eqn:E1; [apply Nat.eqb_eq in E1|].
  - rewrite list_lookup_insert_ne by lia. by apply list_lookup_insert_eq.
  - by apply list_lookup_insert_eq.
Qed.

Lemma drag_mirrored v (i : nat) (y : T) :
  1 < length v ->
  (i = 0 -> drag v i y !! (length v - 1) = Some (py_max zero y))
  /\ (i = length v - 1 -> drag v i y !! 0 = Some (py_max zero y)).
Proof.
  intros Hlen. unfold drag. rewrite !length_insert.
  apply Nat.ltb_lt in Hlen as Hb. rewrite Hb. split; intros ->.
  - simpl. rewrite list_lookup_insert_eq by (rewrite length_insert; lia).
    f_equal. apply nth_lookup_total, list_lookup_insert_eq. lia.
  - destruct (length v - 1 =? 0) eqn:E0; [apply Nat.eqb_eq in E0; lia|].
    rewrite Nat.eqb_refl.
    rewrite list_lookup_insert_eq by (rewrite length_insert; lia).
    f_equal. apply nth_lookup_total, list_lookup_insert_eq. lia.
Qed.

Lemma drag_frame v (i j : nat) (y : T) :
  j <> i ->
  ~ (1 < length v /\ (i = 0 /\ j = length v - 1 \/ i = length v - 1 /\ j = 0)) ->
  drag v i y !! j = v !! j.
Proof.
  intros Hji Hmirror. unfold drag. rewrite !length_insert.
  destruct (1 <? length v) eqn:Hlen;
    [apply Nat.ltb_lt in Hlen | by apply list_lookup_insert_ne].
  destruct (i =? 0) eqn:E0; [apply Nat.eqb_eq in E0|].
  { rewrite !list_lookup_insert_ne by lia. done. }
  destruct (i =? length v - 1) eqn:E1; [apply Nat.eqb_eq in E1|].
  - rewrite !list_lookup_insert_ne by lia. done.
  - by apply list_lookup_insert_ne.
Qed.

Context {L : ArithLaws A}.

Lemma update_positions_invariant (s v : list T) :
  Forall (fun x => leb zero x = true) v ->
  periodic_nonneg (v_coords (update_positions s v)).
Proof.
  intros Hv. unfold update_positions, periodic_nonneg. simpl.
  destruct (1 <? length v) eqn:Hlen.
  - split; [apply set_last_to_first_closed | by apply set_last_to_first_Forall].
  - apply Nat.ltb_ge in Hlen. split; [by apply head_last_short | done].
Qed.

Lemma drag_invariant v (i : nat) (y : T) :
  periodic_nonneg v -> periodic_nonneg (drag v i y).
Proof.
  intros [Hclosed Hnonneg].
  pose proof (py_max_zero_nonneg (L:=L) y) as Hy.
  assert (H1 : Forall (fun x => leb zero x = true) (<[i := py_max zero y]> v)).
  { destruct (decide (i < length v)).
    - by apply Forall_insert.
    - rewrite list_insert_ge by lia. done. }
  split.
  - destruct (decide (1 < length v)) as [Hlen | Hlen].
    + rewrite head_lookup, last_lookup, drag_length, <- Nat.sub_1_r.
      destruct (decide (i = 0)) as [-> | Hi0].
      { rewrite drag_written by lia. symmetry. by apply drag_mirrored. }
      destruct (decide (i = length v - 1)) as [-> | Hi1].
      { rewrite drag_written by lia. by apply drag_mirrored. }
      rewrite !drag_frame by lia.
      by rewrite <- head_lookup, Hclosed, last_lookup, <- Nat.sub_1_r.
    + apply head_last_short. rewrite drag_length. lia.
  - unfold drag. repeat case_match; try done.
    + apply Forall_insert; [done|].
      destruct (<[i:=py_max zero y]> v) as [|a w] eqn:E; [apply leb_refl|].
      by apply Forall_cons in H1 as [? _].
    + apply Forall_insert; [done|].
      destruct (nth_in_or_default (length (<[i:=py_max zero y]> v) - 1)
                  (<[i:=py_max zero y]> v) zero) as [Hin | ->];
        [| apply leb_refl].
      rewrite Forall_forall in H1. apply H1. by apply list_elem_of_In.
Qed.

(** A completed [update_spline] leaves a closed profile that is nowhere
    below zero, on the arc lengths of the new control points. *)
Lemma update_spline_velocity_invariant (ctrl_pts : list (point T)) dv dv' (cs : T -> T) :
  update_spline_velocity CubicSpline interp1d np_mod cs_vel_initial ctrl_pts dv
    = Ok (dv', cs) ->
  periodic_nonneg (v_coords dv')
  /\ s_coords dv' = get_arc_lengths_for_path_ctrl_pts ctrl_pts.
Proof.
  unfold update_spline_velocity.
  destruct ctrl_pts as [|p0 rest].
  { intros [= <- _]. split; [|done]. by apply update_positions_invariant. }
  set (new_s := get_arc_lengths_for_path_ctrl_pts (p0 :: rest)).
  set (new_v := map (np_maximum zero) _).
  assert (Hnew : Forall (fun x => leb zero x = true) new_v).
  { apply Forall_map, Forall_true. intros x. apply np_maximum_zero_nonneg. }
  destruct (1 <? length new_s).
  - destruct (CubicSpline _ _) as [f|]; [|done]. simpl.
    intros [= <- _]. split; [|done].
    by apply update_positions_invariant, set_last_to_first_Forall.
  - destruct (length new_s =? 1); intros [= <- _];
      (split; [by apply update_positions_invariant | done]).
Qed.

Lemma after_update_spline_invariant (ctrl_pts : list (point T)) dv :
  periodic_nonneg (v_coords dv) ->
  periodic_nonneg
    (v_coords (after_update_spline CubicSpline interp1d np_mod cs_vel_initial ctrl_pts dv)).
Proof.
  intros Hdv. unfold after_update_spline.
  destruct (update_spline_velocity _ _ _ _ _ _) as [[dv' cs]|] eqn:E; [|done].
  by apply update_spline_velocity_invariant in E as [? _].
Qed.

Lemma reachable_invariant dv :
  reachable CubicSpline interp1d np_mod cs_vel_initial dv ->
  periodic_nonneg (v_coords dv).
Proof.
  induction 1 as [ctrl_pts dv0 dv cs Hupd | dv i y _ IH | ctrl_pts dv _ IH].
  - by apply update_spline_velocity_invariant in Hupd as [? _].
  - by apply drag_invariant.
  - by apply after_update_spline_invariant.
Qed.

End ProfileFacts.

(** C4, as the code has it.  A completed reparametrisation leaves a closed
    velocity array (its last velocity is its first) that is nowhere below
    zero and has one velocity for each control point, whatever the old array
    was.  A drag keeps an array closed and nowhere below zero; so every array
    the editor reaches by reparametrisations and drags is such.  A drag at
    [i] with [new_v] writes [new_v] there when [0 < new_v] and 0 otherwise,
    writes the same value to the other end when [i] is the first or the
    last index of an array of two or more, and changes nothing else. *)
Theorem velocity_profile_invariant {T : Type} {A : Arith T} (L : ArithLaws A)
    (CubicSpline : list T -> list T -> result (T -> T))
    (interp1d : list T -> list T -> T -> T) (np_mod : T -> T -> T)
    (cs_vel_initial : T -> T) :
  (forall (ctrl_pts : list (point T)) (dv0 dv : vel_scatter T) (cs : T -> T),
      update_spline_velocity CubicSpline interp1d np_mod cs_vel_initial ctrl_pts dv0
        = Ok (dv, cs) ->
      periodic_nonneg (v_coords dv)
      /\ s_coords dv = get_arc_lengths_for_path_ctrl_pts ctrl_pts)
  /\ (forall (v : list T) (i : nat) (y : T),
        periodic_nonneg v -> periodic_nonneg (drag v i y))
  /\ (forall dv : vel_scatter T,
        reachable CubicSpline interp1d np_mod cs_vel_initial dv ->
        periodic_nonneg (v_coords dv))
  /\ (forall (v : list T) (i : nat) (y : T),
        let written := if ltb zero y then y else zero in
        length (drag v i y) = length v
        /\ leb zero written = true
        /\ (i < length v -> drag v i y !! i = Some written)
        /\ (1 < length v -> i = 0 ->
            drag v i y !! (length v - 1) = Some written)
        /\ (1 < length v -> i = length v - 1 ->
            drag v i y !! 0 = Some written)
        /\ (forall j : nat,
              j <> i ->
              ~ (1 < length v /\ (i = 0 /\ j = length v - 1 \/ i = length v - 1 /\ j = 0)) ->
              drag v i y !! j = v !! j)).
Proof.
  split; [intros ctrl_pts dv0 dv cs; by apply update_spline_velocity_invariant|].
  split; [intros v i y; by apply drag_invariant|].
  split; [intros dv; by apply reachable_invariant|].
  intros v i y written.
  split; [apply drag_length|].
  split; [apply (py_max_zero_nonneg y)|].
  split; [apply drag_written|].
  split; [intros Hlen; by apply drag_mirrored|].
  split; [intros Hlen; by apply drag_mirrored|].
  intros j. apply drag_frame.
Qed.

Lemma velocity_profile_invariant_witness :
  periodic_nonneg (v_coords rect_profileQ)
  /\ drag (v_coords rect_profileQ) 0 7%Q = [7; 6; 9; 7]%Q
  /\ drag (v_coords rect_profileQ) 2 (-1 # 1)%Q = [5; 6; 0; 5]%Q
  /\ periodic_nonneg (drag (v_coords rect_profileQ) 0 7%Q).
Proof.
  assert (H : periodic_nonneg (v_coords rect_profileQ)).
  { split; [reflexivity|]. repeat constructor. }
  split; [exact H|]. split; [reflexivity|]. split; [reflexivity|].
  destruct (velocity_profile_invariant exactQ_laws periodic_spline interp_linear
              Qmod const_initial) as (_ & Hdrag & _).
  apply Hdrag. exact H.
Defined.

(** C4, as stated, fails: a drag away from the ends of an array that is not
    closed leaves it not closed, and a drag leaves the entries it does not
    write as they were, below zero or not. *)
Lemma drag_keeps_an_open_or_negative_array :
  drag [1; 2; 3]%float 1 5%float = [1; 5; 3]%float
  /\ head (drag [1; 2; 3]%float 1 5%float) <> last (drag [1; 2; 3]%float 1 5%float)
  /\ drag [-1; 2; -1]%float 1 5%float = [-1; 5; -1]%float
  /\ leb (zero : float) (-1)%float = false.
Proof.
  repeat split; try (vm_compute; reflexivity).
  vm_compute. intros H. discriminate H.
Qed.

(** ** Reparametrisation *)

Section UniqueFacts.
Context {T : Type} {A : Arith T}.

Lemma unique_insert_length (x : T) (i : nat) (acc : list (T * nat)) :
  length (unique_insert x i acc) <= S (length acc).
Proof.
  induction acc as [|[y j] acc IH]; simpl; [lia|].
  repeat case_match; simpl; lia.
Qed.

Lemma unique_fold_length (ixs : list (nat * T)) (acc : list (T * nat)) :
  length (fold_left (fun acc ix => unique_insert (snd ix) (fst ix) acc) ixs acc)
  <= length ixs + length acc.
Proof.
  revert acc. induction ixs as [|[i x] ixs IH]; intros acc; simpl; [lia|].
  specialize (IH (unique_insert x i acc)).
  pose proof (unique_insert_length x i acc). lia.
Qed.

Lemma np_unique_length (a : list T) : length (np_unique a) <= length a.
Proof.
  unfold np_unique.
  pose proof (unique_fold_length (zip (seq 0 (length a)) a) []) as H.
  rewrite length_zip_with, length_seq in H. simpl in H. lia.
Qed.

Lemma unique_fold_head (s0 : T) (ixs : list (nat * T)) (rest : list (T * nat)) :
  Forall (fun ix => ltb (snd ix) s0 = false) ixs ->
  head (fold_left (fun acc ix => unique_insert (snd ix) (fst ix) acc) ixs ((s0, 0) :: rest))
  = Some (s0, 0).
Proof.
  revert rest. induction ixs as [|[i x] ixs IH]; intros rest Hge; [done|].
  apply Forall_cons in Hge as [Hx Hge]. simpl in *. rewrite Hx.
  destruct (eqb x s0); by apply IH.
Qed.

(** When no sample is below the first, the first distinct value is the first
    sample, found at index 0. *)
Lemma np_unique_head (a : list T) :
  Forall (fun x => ltb x (nth 0 a zero) = false) a ->
  a <> [] ->
  head (np_unique a) = Some (nth 0 a zero, 0).
Proof.
  destruct a as [|s0 a]; [done|]. intros Hge _.
  apply Forall_cons in Hge as [_ Hge]. unfold np_unique. simpl.
  apply unique_fold_head.
  apply Forall_forall. intros [i x] Hin. simpl.
  apply elem_of_zip_r in Hin. simpl in Hin.
  rewrite Forall_forall in Hge. by apply Hge.
Qed.

Lemma np_unique_first (current_s current_v : list T) :
  Forall (fun x => ltb x (nth 0 current_s zero) = false) current_s ->
  1 < length current_s ->
  nth 0 (map fst (np_unique current_s)) zero = nth 0 current_s zero
  /\ nth 0 (map (fun ix => nth (snd ix) current_v zero) (np_unique current_s)) zero
     = nth 0 current_v zero.
Proof.
  intros Hge Hlen.
  pose proof (np_unique_head current_s Hge) as Hhead.
  assert (Hne : current_s <> []) by (intros ->; simpl in Hlen; lia).
  specialize (Hhead Hne).
  destruct (np_unique current_s) as [|[u j] us]; [done|].
  simpl in Hhead. injection Hhead as -> ->. done.
Qed.

End UniqueFacts.

Section DedupFacts.
Context {T : Type} {A : Arith T}.

Lemma unique_insert_elem (x : T) (i : nat) (acc : list (T * nat)) (e : T * nat) :
  e ∈ unique_insert x i acc -> e = (x, i) \/ e ∈ acc.
Proof.
  induction acc as [|[y j] acc IH]; simpl.
  - intros H. apply list_elem_of_singleton in H. by left.
  - destruct (ltb x y).
    + intros H. apply elem_of_cons in H as [->|H]; [by left | by right].
    + destruct (eqb x y); [by right|].
      intros H. apply elem_of_cons in H as [->|H]; [right; by left|].
      destruct (IH H) as [->|H']; [by left | right; by right].
Qed.

Lemma unique_insert_keeps (x : T) (i : nat) (acc : list (T * nat)) (e : T * nat) :
  e ∈ acc -> e ∈ unique_insert x i acc.
Proof.
  induction acc as [|[y j] acc IH]; simpl; [by intros H; apply elem_of_nil in H|].
  intros H. destruct (ltb x y); [by right|].
  destruct (eqb x y); [done|].
  apply elem_of_cons in H as [->|H]; [by left | right; by apply IH].
Qed.

Lemma unique_insert_has (x : T) (i : nat) (acc : list (T * nat)) :
  exists e, e ∈ unique_insert x i acc /\ (fst e = x \/ eqb x (fst e) = true).
Proof.
  induction acc as [|[y j] acc IH]; simpl.
  - exists (x, i). split; [by left | by left].
  - destruct (ltb x y).
    + exists (x, i). split; [by left | by left].
    + destruct (eqb x y) eqn:E.
      * exists (y, j). split; [by left | by right].
      * destruct IH as (e & He & Hx). exists e. split; [by right | done].
Qed.

Lemma unique_fold_sound (a : list T) (ixs : list (nat * T)) (acc : list (T * nat)) :
  (forall i x, (i, x) ∈ ixs -> a !! i = Some x) ->
  (forall u j, (u, j) ∈ acc -> a !! j = Some u) ->
  forall u j,
    (u, j) ∈ fold_left (fun acc ix => unique_insert (snd ix) (fst ix) acc) ixs acc ->
    a !! j = Some u.
Proof.
  revert acc. induction ixs as [|[i x] ixs IH]; intros acc Hixs Hacc u j; simpl.
  - apply Hacc.
  - apply IH.
    + intros i' x' H. apply Hixs. by right.
    + intros u' j' H. apply unique_insert_elem in H as [[= -> ->]|H].
      * apply Hixs. by left.
      * by apply Hacc.
Qed.

Lemma unique_fold_keeps (ixs : list (nat * T)) (acc : list (T * nat)) (e : T * nat) :
  e ∈ acc ->
  e ∈ fold_left (fun acc ix => unique_insert (snd ix) (fst ix) acc) ixs acc.
Proof.
  revert acc. induction ixs as [|[i x] ixs IH]; intros acc H; simpl; [done|].
  by apply IH, unique_insert_keeps.
Qed.

Lemma unique_fold_complete (ixs : list (nat * T)) (acc : list (T * nat)) (i : nat) (x : T) :
  (i, x) ∈ ixs ->
  exists e,
    e ∈ fold_left (fun acc ix => unique_insert (snd ix) (fst ix) acc) ixs acc
    /\ (fst e = x \/ eqb x (fst e) = true).
Proof.
  revert acc. induction ixs as [|[i' x'] ixs IH]; intros acc H; simpl.
  - by apply elem_of_nil in H.
  - apply elem_of_cons in H as [[= <- <-]|H]; [|by apply IH].
    destruct (unique_insert_has x i acc) as (e & He & Hx).
    exists e. split; [by apply unique_fold_keeps | done].
Qed.

Lemma zip_seq_lookup (a : list T) (i : nat) (x : T) :
  (i, x) ∈ zip (seq 0 (length a)) a <-> a !! i = Some x.
Proof.
  rewrite list_elem_of_lookup. split.
  - intros [k Hk]. apply lookup_zip_with_Some in Hk as (i' & x' & [= <- <-] & Hi & Hx).
    apply lookup_seq in Hi as [-> _]. done.
  - intros Hx. exists i. apply lookup_zip_with_Some. exists i, x.
    split; [done|]. split; [|done].
    apply lookup_seq. split; [done|]. by apply lookup_lt_Some in Hx.
Qed.

Lemma unique_insert_head (x : T) (i : nat) (acc : list (T * nat)) :
  head (map fst (unique_insert x i acc)) = Some x
  \/ head (map fst (unique_insert x i acc)) = head (map fst acc).
Proof.
  destruct acc as [|[y j] acc]; simpl; [by left|].
  destruct (ltb x y); [by left|]. destruct (eqb x y); by right.
Qed.

Lemma strictly_increasing_cons (y : T) (l : list T) :
  strictly_increasing (y :: l) = true <->
  (forall z, head l = Some z -> ltb y z = true) /\ strictly_increasing l = true.
Proof.
  destruct l as [|z l]; simpl.
  - split; [by intros _; split | done].
  - rewrite andb_true_iff. split.
    + intros [Hyz Hl]. split; [by intros ? [= <-] | done].
    + intros [Hyz Hl]. split; [by apply Hyz | done].
Qed.

(** Where two values that are neither below one another are equal, the
    entries of [np.unique] increase strictly. *)
Lemma unique_insert_sorted (x : T) (i : nat) (acc : list (T * nat)) :
  (forall a b : T, ltb a b = false -> eqb a b = false -> ltb b a = true) ->
  strictly_increasing (map fst acc) = true ->
  strictly_increasing (map fst (unique_insert x i acc)) = true.
Proof.
  intros Hconnex. induction acc as [|[y j] acc IH]; intros Hacc; [done|].
  simpl. destruct (ltb x y) eqn:Exy.
  - change (strictly_increasing (x :: map fst ((y, j) :: acc)) = true).
    apply strictly_increasing_cons. split; [by intros z [= <-] | done].
  - destruct (eqb x y) eqn:Eeq; [done|].
    change (strictly_increasing (y :: map fst (unique_insert x i acc)) = true).
    change (strictly_increasing (y :: map fst acc) = true) in Hacc.
    apply strictly_increasing_cons in Hacc as [Hhead Hrest].
    apply strictly_increasing_cons. split; [|by apply IH].
    intros z Hz.
    destruct (unique_insert_head x i acc) as [H|H]; rewrite H in Hz.
    + injection Hz as <-. by apply Hconnex.
    + by apply Hhead.
Qed.

Lemma np_unique_sorted (a : list T) :
  (forall a b : T, ltb a b = false -> eqb a b = false -> ltb b a = true) ->
  strictly_increasing (map fst (np_unique a)) = true.
Proof.
  intros Hconnex. unfold np_unique.
  generalize (zip (seq 0 (length a)) a). intros ixs.
  assert (H : strictly_increasing (map fst ([] : list (T * nat))) = true) by done.
  revert H. generalize ([] : list (T * nat)).
  induction ixs as [|[i x] ixs IH]; intros acc Hacc; simpl; [done|].
  by apply IH, unique_insert_sorted.
Qed.

(** Every entry of [np.unique(a, return_index=True)] is a sample of [a] with
    an index where it stands, and every sample of [a] is, or equals, one of
    the entries. *)
Lemma np_unique_sound (a : list T) (u : T) (j : nat) :
  (u, j) ∈ np_unique a -> a !! j = Some u.
Proof.
  unfold np_unique. apply unique_fold_sound.
  - intros i x. apply zip_seq_lookup.
  - intros u' j' H. by apply elem_of_nil in H.
Qed.

Lemma np_unique_complete (a : list T) (x : T) :
  x ∈ a -> exists u, u ∈ map fst (np_unique a) /\ (u = x \/ eqb x u = true).
Proof.
  intros Hx. apply list_elem_of_lookup in Hx as [i Hi].
  apply zip_seq_lookup in Hi.
  destruct (unique_fold_complete _ [] i x Hi) as (e & He & Hex).
  exists (fst e). split; [|done].
  apply list_elem_of_fmap. by exists e.
Qed.

End DedupFacts.

(** C5, as the code has it.  With two or more distinct old arc-length
    samples, the last of which exceeds [1e-6], the new velocities are read
    off the interpolant over the distinct old samples extended by one point
    before (the gap from the second-to-last distinct sample to the last old
    sample, or a unit gap with fewer than three distinct samples) and one
    point after (the first gap), with the first distinct sample's velocity
    at both added ends, at the positions [(new_s / d) * old_last], where [d]
    is the new loop length, or 1 when that is not above [1e-6], and
    [old_last] is the last old sample.  When the last old sample is above 0
    but not above [1e-6], the new profile is constant at the first old
    velocity; when it is not above 0, the new profile is read off the initial
    velocity spline.  The distinct samples are old samples, each with the
    velocity at an index where it stands; every old sample is or equals one
    of them; they increase strictly where two values neither of which is
    below the other are equal; and when no old sample is below the first, the
    added end values are the original first velocity. *)
Theorem resample_velocities_interpolates {T : Type} {A : Arith T} (L : ArithLaws A)
    (interp1d : list T -> list T -> T -> T) (np_mod : T -> T -> T)
    (cs_vel_initial : T -> T)
    (new_s : list T) (s_max : T) (current_s current_v : list T) (old_last : T) :
  let unique_s := map fst (np_unique current_s) in
  let unique_v := map (fun ix => nth (snd ix) current_v zero) (np_unique current_s) in
  let d := if ltb tol_s s_max then s_max else one in
  1 < length unique_s ->
  last current_s = Some old_last ->
  (ltb tol_s old_last = true ->
   resample_velocities interp1d np_mod cs_vel_initial new_s s_max current_s current_v
   = map (fun s =>
            interp1d
              ([ if 2 <? length unique_s
                 then sub (nth 0 unique_s zero)
                          (sub old_last (nth (length unique_s - 2) unique_s zero))
                 else sub (nth 0 unique_s zero) one ]
               ++ unique_s
               ++ [ add (default zero (last unique_s))
                        (sub (nth 1 unique_s zero) (nth 0 unique_s zero)) ])
              ([nth 0 unique_v zero] ++ unique_v ++ [nth 0 unique_v zero])
              (mul (div s d) old_last))
         new_s)
  /\ (ltb zero old_last = true -> ltb tol_s old_last = false ->
      forall (v0 : T) (rest : list T),
        current_v = v0 :: rest ->
        resample_velocities interp1d np_mod cs_vel_initial new_s s_max current_s current_v
        = map (fun _ => v0) new_s)
  /\ (ltb zero old_last = false ->
      resample_velocities interp1d np_mod cs_vel_initial new_s s_max current_s current_v
      = map (fun s => cs_vel_initial (np_mod s d)) new_s)
  /\ (forall (u : T) (j : nat),
        (u, j) ∈ np_unique current_s ->
        current_s !! j = Some u /\ nth j current_v zero ∈ unique_v)
  /\ (forall x : T,
        x ∈ current_s -> exists u, u ∈ unique_s /\ (u = x \/ eqb x u = true))
  /\ ((forall a b : T, ltb a b = false -> eqb a b = false -> ltb b a = true) ->
      strictly_increasing unique_s = true)
  /\ (Forall (fun x => ltb x (nth 0 current_s zero) = false) current_s ->
      nth 0 unique_s zero = nth 0 current_s zero
      /\ nth 0 unique_v zero = nth 0 current_v zero).
Proof.
  intros unique_s unique_v d Hdistinct Hlast_eq.
  assert (Hlen_u : length unique_s = length (np_unique current_s))
    by (unfold unique_s; apply length_map).
  assert (Hlen : 1 < length current_s).
  { pose proof (np_unique_length current_s). lia. }
  assert (Hlast : last_or_zero current_s = old_last)
    by (unfold last_or_zero; by rewrite Hlast_eq).
  apply Nat.ltb_lt in Hlen as Hlenb. apply Nat.ltb_lt in Hdistinct as Hdistinctb.
  assert (Hone : (length current_s =? 1) = false) by (apply Nat.eqb_neq; lia).
  split; [|split; [|split; [|split; [|split; [|split]]]]].
  - intros Hbig.
    assert (Hpos : ltb zero old_last = true).
    { eapply ltb_trans; [apply tol_s_pos | exact Hbig]. }
    unfold resample_velocities. fold unique_s. fold unique_v.
    rewrite Hlenb, Hlast, Hpos, Hdistinctb, Hbig. simpl.
    unfold s_to_sample_at. rewrite !map_map, Hlast_eq. simpl.
    apply map_ext. intros s.
    unfold s_interp_domain, v_interp_values, safe_s_max, last_or_zero.
    by rewrite Hdistinctb, Hlast_eq.
  - intros Hpos Hsmall v0 rest ->.
    unfold resample_velocities. fold unique_s.
    by rewrite Hlenb, Hlast, Hpos, Hdistinctb, Hsmall.
  - intros Hnonpos.
    unfold resample_velocities.
    by rewrite Hlenb, Hlast, Hnonpos, Hone.
  - intros u j Huj. split; [by apply np_unique_sound|].
    unfold unique_v. apply list_elem_of_fmap. by exists (u, j).
  - apply np_unique_complete.
  - apply np_unique_sorted.
  - intros Hge. by apply np_unique_first.
Qed.

Lemma resample_velocities_interpolates_witness :
  let new_s := get_arc_lengths_for_path_ctrl_pts pentagon_ptsQ in
  (1 < length (map fst (np_unique (s_coords rect_profileQ)))
   /\ last (s_coords rect_profileQ) = Some 22%Q)
  /\ resample_velocities interp_linear Qmod const_initial new_s
       (loop_length pentagon_ptsQ) (s_coords rect_profileQ) (v_coords rect_profileQ)
     = map (fun s =>
              interp_linear [-8 # 1; 0; 8; 14; 22; 30]%Q [5; 5; 6; 9; 5; 5]%Q
                (mul (div s (loop_length pentagon_ptsQ)) 22%Q))
           new_s.
Proof.
  intros new_s.
  assert (H1 : 1 < length (map fst (np_unique (s_coords rect_profileQ))))
    by (vm_compute; lia).
  assert (H2 : last (s_coords rect_profileQ) = Some 22%Q) by reflexivity.
  split; [by split|].
  destruct (resample_velocities_interpolates exactQ_laws interp_linear Qmod
              const_initial new_s (loop_length pentagon_ptsQ)
              (s_coords rect_profileQ) (v_coords rect_profileQ) 22%Q H1 H2)
    as [Heq _].
  rewrite Heq by reflexivity. reflexivity.
Defined.

(** C5, as stated, fails: these three old samples of a closed profile are
    distinct, but the last is not above [1e-6], so the code fills the new
    profile with the first old velocity and never queries the interpolant,
    which would give other values. *)
Lemma resample_velocities_small_extent :
  map fst (np_unique tiny_s) = tiny_s
  /\ head tiny_v = last tiny_v
  /\ ltb tol_s (last_or_zero tiny_s) = false
  /\ resample_velocities interp_linear Qmod const_initial [0; 1; 2]%Q 3%Q tiny_s tiny_v
     = [3; 3; 3]%Q
  /\ spec_reparametrize_to interp_linear [0; 1; 2]%Q 3%Q tiny_s tiny_v
     = [3; 17 # 3; 17 # 3]%Q.
Proof. repeat split; vm_compute; reflexivity. Qed.

(** ** Curvature *)

Section CurvatureFacts.
Context {T : Type} {A : Arith T}.
Variable pow15 : T -> T.

Lemma np_gradient_rows (f : list T) :
  3 <= length f -> exists g, np_gradient f = Ok g /\ length g = length f.
Proof.
  intros Hlen. unfold np_gradient.
  destruct (length f <? 3) eqn:E; [apply Nat.ltb_lt in E; lia|].
  eexists. split; [reflexivity|].
  simpl. rewrite length_app, length_map, length_seq. simpl. lia.
Qed.

Lemma guard_denom_length (denom : list T) : length (guard_denom denom) = length denom.
Proof. apply length_map. Qed.

Lemma guard_denom_lookup (denom : list T) (i : nat) (d : T) :
  denom !! i = Some d ->
  guard_denom denom !! i = Some (if eqb d zero then eps else d).
Proof. intros H. unfold guard_denom. by rewrite list_lookup_fmap, H. Qed.

Lemma guard_denom_nonzero (denom : list T) :
  eqb eps zero = false ->
  Forall (fun d => eqb d zero = false) (guard_denom denom).
Proof.
  intros Heps. apply Forall_map, Forall_true. intros d.
  by destruct (eqb d zero) eqn:E.
Qed.

Lemma curvature_rows (x_np y_np : list T) :
  2 <= length x_np -> length y_np = length x_np ->
  exists kappa, curvature pow15 x_np y_np = Ok kappa /\ length kappa = length x_np.
Proof.
  intros Hx Hy. unfold curvature. cbv zeta beta.
  assert (Hext : forall a : list T, 2 <= length a ->
            length (drop (length a - 2) a ++ a ++ take 2 a) = length a + 4).
  { intros a Ha. rewrite !length_app, length_drop, length_take. lia. }
  destruct (np_gradient_rows (drop (length x_np - 2) x_np ++ x_np ++ take 2 x_np))
    as (dx & -> & Hdx); [rewrite Hext; lia|].
  destruct (np_gradient_rows (drop (length y_np - 2) y_np ++ y_np ++ take 2 y_np))
    as (dy & -> & Hdy); [rewrite Hext; lia|].
  rewrite Hext in Hdx, Hdy by lia. simpl.
  destruct (np_gradient_rows dx) as (d2x & -> & Hd2x); [lia|].
  destruct (np_gradient_rows dy) as (d2y & -> & Hd2y); [lia|]. simpl.
  eexists. split; [reflexivity|].
  unfold curvature_denom.
  rewrite length_take, length_drop, !length_zip_with, guard_denom_length,
    length_map, !length_zip_with. lia.
Qed.

End CurvatureFacts.

(** C6, as the code has it: every curvature entry is the quotient of
    [dx * d2y - d2x * dy] by the denominator [(dx^2 + dy^2)^1.5] of its row,
    in which an exact zero has been replaced by [np.finfo(float).eps], the
    machine epsilon, and any other value is kept; as [eps] is not zero, no
    curvature entry is a quotient by zero.  For two or more samples the
    computation returns one curvature value for every output row. *)
Theorem curvature_denominator_guard {T : Type} {A : Arith T} (pow15 : T -> T) :
  eqb (eps : T) zero = false ->
  (forall (x_np y_np kappa : list T),
      curvature pow15 x_np y_np = Ok kappa ->
      exists dx_dt dy_dt d2x d2y : list T,
        np_gradient (drop (length x_np - 2) x_np ++ x_np ++ take 2 x_np) = Ok dx_dt
        /\ np_gradient (drop (length y_np - 2) y_np ++ y_np ++ take 2 y_np) = Ok dy_dt
        /\ np_gradient dx_dt = Ok d2x
        /\ np_gradient dy_dt = Ok d2y
        /\ forall (i : nat) (k : T),
             kappa !! i = Some k ->
             exists dx dy ddx ddy : T,
               dx_dt !! (2 + i) = Some dx /\ dy_dt !! (2 + i) = Some dy
               /\ d2x !! (2 + i) = Some ddx /\ d2y !! (2 + i) = Some ddy
               /\ let raw := pow15 (add (mul dx dx) (mul dy dy)) in
                  let den := if eqb raw zero then eps else raw in
                  k = div (sub (mul dx ddy) (mul ddx dy)) den
                  /\ eqb den zero = false)
  /\ (forall x_np y_np : list T,
        2 <= length x_np -> length y_np = length x_np ->
        exists kappa, curvature pow15 x_np y_np = Ok kappa
                      /\ length kappa = length x_np).
Proof.
  intros Heps. split; [|apply curvature_rows].
  intros x_np y_np kappa. unfold curvature. cbv zeta beta.
  destruct (np_gradient (_ ++ x_np ++ _)) as [dx_dt|] eqn:Gx; [|done].
  destruct (np_gradient (_ ++ y_np ++ _)) as [dy_dt|] eqn:Gy; [|done].
  cbn [rbind].
  destruct (np_gradient dx_dt) as [d2x|] eqn:G2x; [|done].
  destruct (np_gradient dy_dt) as [d2y|] eqn:G2y; [|done].
  cbn [rbind]. intros [= <-].
  exists dx_dt, dy_dt, d2x, d2y. do 4 (split; [done|]).
  intros i k Hk.
  apply lookup_take_Some in Hk as [Hk _]. rewrite lookup_drop in Hk.
  apply lookup_zip_with_Some in Hk as (num & den & -> & Hnum & Hden).
  apply lookup_zip_with_Some in Hnum as (a & b & -> & Ha & Hb).
  apply lookup_zip_with_Some in Ha as (dx & ddy & -> & Hdx & Hddy).
  apply lookup_zip_with_Some in Hb as (ddx & dy & -> & Hddx & Hdy).
  unfold curvature_denom, guard_denom in Hden.
  rewrite !list_lookup_fmap in Hden.
  destruct (zip_with add _ _ !! (2 + i)) as [sq|] eqn:Hsq; [|done].
  simpl in Hden. injection Hden as <-.
  apply lookup_zip_with_Some in Hsq as (xx & yy & -> & Hxx & Hyy).
  apply lookup_zip_with_Some in Hxx as (dx1 & dx2 & -> & Hdx1 & Hdx2).
  apply lookup_zip_with_Some in Hyy as (dy1 & dy2 & -> & Hdy1 & Hdy2).
  assert (dx1 = dx) by congruence. assert (dx2 = dx) by congruence.
  assert (dy1 = dy) by congruence. assert (dy2 = dy) by congruence.
  subst dx1 dx2 dy1 dy2.
  exists dx, dy, ddx, ddy. do 4 (split; [done|]).
  cbv zeta. split; [done|].
  by destruct (eqb (pow15 _) zero) eqn:E.
Qed.

Lemma curvature_denominator_guard_witness :
  eqb (eps : float) zero = false
  /\ curvature pow15_binary64 [1; 1; 1]%float [2; 2; 2]%float = Ok [0; 0; 0]%float
  /\ forall (i : nat) (k : float),
       [0; 0; 0]%float !! i = Some k ->
       exists num den : float, k = div num den /\ eqb den zero = false.
Proof.
  assert (Heps : eqb (eps : float) zero = false) by (vm_compute; reflexivity).
  assert (Hk : curvature pow15_binary64 [1; 1; 1]%float [2; 2; 2]%float
               = Ok [0; 0; 0]%float) by (vm_compute; reflexivity).
  split; [exact Heps|]. split; [exact Hk|].
  destruct (proj1 (curvature_denominator_guard pow15_binary64 Heps) _ _ _ Hk)
    as (dx_dt & dy_dt & d2x & d2y & _ & _ & _ & _ & Hrows).
  intros i k Hi.
  destruct (Hrows i k Hi) as (dx & dy & ddx & ddy & _ & _ & _ & _ & Hq & Hden).
  eexists _, _. split; [exact Hq | exact Hden].
Defined.

(** C6, as stated, fails: the substituted value is the machine epsilon
    [2^-52]; positive doubles below it exist, down to [2^-1074].  A
    denominator that is not zero is kept however small it is, and the
    quotient by it can overflow. *)
Lemma eps_is_not_the_smallest_positive :
  guard_denom [0]%float = [0x1p-52]%float
  /\ ltb (zero : float) 0x1p-1074%float = true
  /\ leb (eps : float) 0x1p-1074%float = false
  /\ zip_with div [1]%float (guard_denom [0x1p-1074]%float) = [infinity]
  /\ ~ spec_smallest_positive (eps : float).
Proof.
  repeat split; try (vm_compute; reflexivity).
  intros [_ Hmin]. specialize (Hmin 0x1p-1074%float).
  vm_compute in Hmin. by specialize (Hmin eq_refl).
Qed.

(** * More properties of the editor *)

(** ** The arc-length table *)

Section ArcLengthFacts.
Context {T : Type} {A : Arith T}.
Implicit Types (pts : list (point T)) (a : list T).

Lemma cumsum_from_take (acc : T) a (k : nat) :
  cumsum_from acc (take k a) = take k (cumsum_from acc a).
Proof.
  revert acc k. induction a as [|x a IH]; intros acc [|k]; try done.
  cbn. f_equal. apply IH.
Qed.

Lemma np_cumsum_take a (k : nat) : np_cumsum (take k a) = take k (np_cumsum a).
Proof. destruct a as [|x a], k as [|k]; simpl; try done. by rewrite cumsum_from_take. Qed.

Lemma np_diff_take a (k : nat) : take k (np_diff a) = np_diff (take (S k) a).
Proof.
  unfold np_diff. rewrite zip_with_take.
  destruct a as [|x a]; [by destruct k|].
  simpl. rewrite !drop_0.
  transitivity (zip_with sub (take k a) (x :: a)).
  - apply zip_with_take_r'. rewrite length_take. simpl. lia.
  - change (x :: take k a) with (take (S k) (x :: a)).
    symmetry. apply zip_with_take_r'. rewrite length_take. simpl. lia.
Qed.

Lemma chord_lengths_take pts (k : nat) :
  take (S k) (chord_lengths pts) = chord_lengths (take (S k) pts).
Proof.
  unfold chord_lengths. simpl take at 1. f_equal.
  rewrite <- np_cumsum_take, zip_with_take, !np_diff_take.
  by rewrite <- !fmap_take.
Qed.

Lemma chord_lengths_length pts : length (chord_lengths pts) = S (length pts - 1).
Proof.
  unfold chord_lengths. cbn [length].
  rewrite np_cumsum_length, length_zip_with, !np_diff_length, !length_map.
  by rewrite Nat.min_id.
Qed.

Lemma get_arc_lengths_chords pts :
  pts <> [] -> get_arc_lengths_for_path_ctrl_pts pts = chord_lengths pts.
Proof.
  intros Hne. destruct pts as [|p0 [|p1 rest]]; [done | done |].
  unfold get_arc_lengths_for_path_ctrl_pts.
  set (pts := p0 :: p1 :: rest).
  set (dist := zip_with hypot _ _).
  assert (Hlen : length dist = length pts).
  { unfold dist. rewrite length_zip_with, !np_diff_length, !length_map, length_app.
    simpl. lia. }
  rewrite Hlen.
  pose proof (chord_lengths_take (pts ++ [p0]) (length pts - 1)) as Htake.
  replace (S (length pts - 1)) with (length pts) in Htake by (simpl; lia).
  rewrite take_app_length in Htake. rewrite <- Htake.
  unfold chord_lengths. fold dist.
  replace (length pts) with (S (length pts - 1)) at 2 by (simpl; lia).
  rewrite np_cumsum_take. reflexivity.
Qed.

Lemma pts_for_spline_prefix pts : take (length pts) (pts_for_spline pts) = pts.
Proof.
  unfold pts_for_spline. destruct pts as [|p0 rest]; [done|].
  destruct (last (p0 :: rest)) as [pl|]; [|apply firstn_all].
  destruct (allclose p0 pl); [apply firstn_all | apply take_app_length].
Qed.

Lemma get_arc_lengths_length pts :
  length (get_arc_lengths_for_path_ctrl_pts pts) = length pts.
Proof.
  destruct pts as [|p0 rest]; [done|].
  rewrite get_arc_lengths_chords by done.
  rewrite chord_lengths_length. simpl. lia.
Qed.

End ArcLengthFacts.

(** X1: the arc-length table of the control points has one entry for each
    point and starts at zero; it is the cumulative chord length of the
    points, which is the sampler's chord-length parametrisation cut to the
    control points; and it never decreases. *)
Theorem arc_lengths_table {T : Type} {A : Arith T} (pts : list (point T)) :
  length (get_arc_lengths_for_path_ctrl_pts pts) = length pts
  /\ (pts <> [] -> head (get_arc_lengths_for_path_ctrl_pts pts) = Some zero)
  /\ get_arc_lengths_for_path_ctrl_pts pts
     = take (length pts) (chord_lengths (pts_for_spline pts))
  /\ (ArithLaws A -> nondecreasing (get_arc_lengths_for_path_ctrl_pts pts)).
Proof.
  destruct pts as [|p0 rest]; [by repeat split|].
  set (pts := p0 :: rest).
  assert (Hne : pts <> []) by done.
  rewrite (get_arc_lengths_chords pts Hne).
  split; [rewrite <- (get_arc_lengths_chords pts Hne); apply get_arc_lengths_length|].
  split; [done|]. split.
  - replace (length pts) with (S (length pts - 1)) by (simpl; lia).
    rewrite chord_lengths_take.
    replace (S (length pts - 1)) with (length pts) by (simpl; lia).
    by rewrite pts_for_spline_prefix.
  - intros L. unfold chord_lengths.
    apply (cumulative_nondecreasing (L:=L)), hypot_zip_nonneg.
Qed.

Lemma arc_lengths_table_witness :
  get_arc_lengths_for_path_ctrl_pts pentagon_ptsQ = [0; 8; 14; 19; 24]%Q
  /\ nondecreasing (get_arc_lengths_for_path_ctrl_pts pentagon_ptsQ).
Proof.
  split; [vm_compute; reflexivity|].
  destruct (arc_lengths_table pentagon_ptsQ) as (_ & _ & _ & Hmono).
  exact (Hmono exactQ_laws).
Defined.

(** ** Control points and velocity control points move in step *)

Section LockstepFacts.
Context {T : Type} {A : Arith T}.
Variable CubicSpline : list T -> list T -> result (T -> T).
Variable interp1d : list T -> list T -> T -> T.
Variable np_mod : T -> T -> T.
Variable cs_vel_initial : T -> T.

Lemma resample_velocities_length (new_s : list T) (s_max : T) (current_s current_v : list T) :
  length (resample_velocities interp1d np_mod cs_vel_initial new_s s_max
            current_s current_v)
  = length new_s.
Proof.
  unfold resample_velocities, s_to_sample_at.
  repeat case_match; by rewrite !length_map.
Qed.

Lemma update_spline_velocity_counts (ctrl_pts : list (point T))
    (dv0 dv : vel_scatter T) (cs : T -> T) :
  update_spline_velocity CubicSpline interp1d np_mod cs_vel_initial ctrl_pts dv0
    = Ok (dv, cs) ->
  length (s_coords dv) = length ctrl_pts /\ length (v_coords dv) = length ctrl_pts.
Proof.
  unfold update_spline_velocity.
  destruct ctrl_pts as [|p0 rest]; [by intros [= <- _]|].
  set (pts := p0 :: rest).
  assert (Hs : length (get_arc_lengths_for_path_ctrl_pts pts) = length pts)
    by apply get_arc_lengths_length.
  set (new_s := get_arc_lengths_for_path_ctrl_pts pts) in *.
  set (new_v := map (np_maximum zero) _).
  assert (Hv : length new_v = length pts).
  { unfold new_v. by rewrite length_map, resample_velocities_length. }
  destruct (1 <? length new_s).
  - destruct (CubicSpline _ _) as [f|]; [|done]. simpl.
    intros [= <- _].
    by rewrite update_positions_v_length, set_last_to_first_length.
  - destruct (length new_s =? 1); intros [= <- _];
      by rewrite update_positions_v_length.
Qed.

End LockstepFacts.

(** X2: a completed [update_spline] leaves exactly one arc length and one
    velocity for each control point, and drags keep these counts; an
    [update_spline] whose refit raises leaves the old arrays, whatever the
    number of control points has become. *)
Theorem update_spline_keeps_counts {T : Type} {A : Arith T}
    (CubicSpline : list T -> list T -> result (T -> T))
    (interp1d : list T -> list T -> T -> T) (np_mod : T -> T -> T)
    (cs_vel_initial : T -> T)
    (ctrl_pts : list (point T)) (dv0 : vel_scatter T) :
  (forall (dv : vel_scatter T) (cs : T -> T),
      update_spline_velocity CubicSpline interp1d np_mod cs_vel_initial ctrl_pts dv0
        = Ok (dv, cs) ->
      length (s_coords dv) = length ctrl_pts
      /\ length (v_coords dv) = length ctrl_pts
      /\ forall (i : nat) (y : T),
           length (s_coords (mouseMoveEvent dv i y)) = length ctrl_pts
           /\ length (v_coords (mouseMoveEvent dv i y)) = length ctrl_pts)
  /\ (forall e : exn,
        update_spline_velocity CubicSpline interp1d np_mod cs_vel_initial ctrl_pts dv0
          = Raise e ->
        after_update_spline CubicSpline interp1d np_mod cs_vel_initial ctrl_pts dv0
          = dv0).
Proof.
  split.
  - intros dv cs Hupd.
    apply update_spline_velocity_counts in Hupd as [Hs Hv].
    repeat split; try done. simpl. by rewrite drag_length.
  - intros e Hupd. unfold after_update_spline. by rewrite Hupd.
Qed.

(** ** Where insert_nearest puts the new point *)

(** X3: [insert_nearest] never appends: on a non-empty sequence the last
    control point stays last.  The first control point stays first unless
    the insertion index is 0, which with two or more points and every edge
    distance below [inf] does not happen. *)
Theorem insert_nearest_keeps_ends {T : Type} {A : Arith T}
    (pts : list (point T)) (p : point T) :
  pts <> [] ->
  last (insert_nearest pts p) = last pts
  /\ (nearest_index pts p <> 0 -> head (insert_nearest pts p) = head pts)
  /\ (nearest_index pts p = 0 -> head (insert_nearest pts p) = Some p)
  /\ (ArithLaws A ->
      2 <= length pts ->
      (forall j, j < length pts - 1 -> ltb (dist_at pts p j) inf = true) ->
      nearest_index pts p <> 0).
Proof.
  intros Hne.
  pose proof (nearest_index_bound_edges pts p) as Hk.
  unfold insert_nearest, py_insert.
  set (k := nearest_index pts p) in *.
  assert (Hlen : 0 < length pts) by (destruct pts; [done | simpl; lia]).
  repeat split.
  - assert (Hdrop : drop k pts <> []).
    { intros Hnil. apply (f_equal length) in Hnil.
      rewrite length_drop in Hnil. simpl in Hnil. lia. }
    rewrite !last_lookup, length_app. simpl. rewrite length_take, length_drop.
    replace (Init.Nat.pred (k `min` length pts + S (length pts - k)))
      with (k + S (length pts - k - 1)) by lia.
    rewrite lookup_app_r by (rewrite length_take; lia).
    rewrite length_take.
    replace (k + S (length pts - k - 1) - k `min` length pts)
      with (S (length pts - k - 1)) by lia.
    simpl. rewrite lookup_drop. f_equal. lia.
  - intros Hk0. destruct pts as [|p0 rest]; [done|].
    destruct k as [|k]; [done|]. reflexivity.
  - intros ->. by rewrite take_0.
  - intros L Hlen2 Hfin.
    destruct (nearest_index_first_minimum pts p Hlen2 Hfin) as (i & _ & Hi & _).
    lia.
Qed.

Lemma insert_nearest_keeps_ends_witness :
  last (insert_nearest rect_ptsQ rect_new_ptQ) = last rect_ptsQ
  /\ head (insert_nearest rect_ptsQ rect_new_ptQ) = head rect_ptsQ.
Proof.
  destruct (insert_nearest_keeps_ends rect_ptsQ rect_new_ptQ)
    as (Hlast & Hhead & _); [discriminate|].
  split; [exact Hlast|]. apply Hhead. vm_compute. discriminate.
Defined.

(** ** The shape of the sampler's output, and its uses *)

Section ShapeFacts.
Context {T : Type} {A : Arith T}.
Variable CubicSpline : list T -> list T -> result (T -> T).
Implicit Types (pts : list (point T)) (r : samples T).

Lemma rmap_total {X Y : Type} (f : X -> Y) (l : list X) :
  rmap (fun x => Ok (f x)) l = Ok (map f l).
Proof. induction l as [|x l IH]; simpl; [done | by rewrite IH]. Qed.

(** A velocity source that raises nothing always yields a velocity column. *)
Lemma v_final_for_y_ctrl_total pts (cs : T -> T) (s_max : T) :
  exists vcol, v_final_for_y_ctrl pts (fun s => Ok (cs s)) s_max = Ok vcol.
Proof. unfold v_final_for_y_ctrl. rewrite rmap_total. simpl. by eexists. Qed.

(** Whatever the branch, the x, y and velocity arrays are [num_points]
    samples followed by the first of them. *)
Lemma spline_sample_closed_arrays pts (n : nat) (cs_vel : T -> result T)
    (s_max : T) r :
  spline_sample_closed CubicSpline pts n cs_vel s_max = Ok r ->
  pts <> [] ->
  exists xp yp vp : list T,
    length xp = n /\ length yp = n /\ length vp = n
    /\ xs_of r = xp ++ take 1 xp /\ ys_of r = yp ++ take 1 yp
    /\ vs_of r = vp ++ take 1 vp
    /\ (1 <= n -> length (S_of r) = n + 1 /\ head (S_of r) = Some zero).
Proof.
  intros Hr Hne. destruct (degenerate pts) eqn:Hdeg.
  - destruct pts as [|p0 rest]; [done|].
    rewrite spline_sample_closed_constant_branch in Hr by done.
    injection Hr as <-.
    exists (np_full n (fst p0)), (np_full n (snd p0)),
      (np_full n (np_maximum zero (try_except (cs_vel zero) zero))).
    rewrite !np_full_length. repeat split; try done.
    + unfold degenerate_samples, S_of. simpl.
      rewrite closed_length, np_full_length. lia.
    + unfold degenerate_samples, S_of. simpl. destruct n; [lia | done].
  - rewrite spline_sample_closed_fit_branch in Hr by done.
    destruct (v_final_for_y_ctrl pts cs_vel s_max) as [v|]; [|done]. simpl in Hr.
    destruct (cs_all_fit CubicSpline pts v) as [[[cs_x cs_y] cs_v]|]; [|done].
    simpl in Hr. injection Hr as <-.
    exists (map cs_x (np_linspace01 n)), (map cs_y (np_linspace01 n)),
      (map (np_maximum zero) (map cs_v (np_linspace01 n))).
    rewrite !length_map, !np_linspace01_length. repeat split; try done.
    unfold S_of. simpl.
    rewrite np_cumsum_length, length_zip_with, !np_diff_length, !closed_length,
      !length_map, np_linspace01_length. lia.
Qed.

Lemma closed_zip (xp yp : list T) :
  length xp = length yp ->
  zip (xp ++ take 1 xp) (yp ++ take 1 yp) = zip xp yp ++ take 1 (zip xp yp).
Proof.
  intros Hlen. rewrite zip_with_app by done.
  f_equal. destruct xp, yp; done.
Qed.

Lemma closed_drop_last (xp : list T) :
  take (length (xp ++ take 1 xp) - 1) (xp ++ take 1 xp) = xp.
Proof.
  destruct xp as [|x xp]; [done|].
  change (take 1 (x :: xp)) with [x].
  rewrite length_app. simpl length.
  replace (S (length xp) + 1 - 1) with (length (x :: xp)) by (simpl; lia).
  apply take_app_length.
Qed.

End ShapeFacts.

(** X4: when the sampler returns for the static waypoints, a slider value
    [n >= 1] gives exactly [n] control points: the sampled loop without its
    repeated end point, so that closing them again gives back the sampled
    loop.  With no static waypoint there is no control point. *)
Theorem on_slider_change_control_points {T : Type} {A : Arith T}
    (CubicSpline : list T -> list T -> result (T -> T))
    (static_pts : list (point T)) (value : nat) (cs_vel_initial : T -> T)
    (s_max : T) (r : samples T) :
  spline_sample_closed CubicSpline static_pts value
    (fun s => Ok (cs_vel_initial s)) s_max = Ok r ->
  on_slider_change CubicSpline static_pts value cs_vel_initial s_max
    = Ok (ctrl_pts_of_samples r)
  /\ (static_pts = [] -> ctrl_pts_of_samples r = [])
  /\ (static_pts <> [] ->
      length (ctrl_pts_of_samples r) = value
      /\ ctrl_pts_of_samples r ++ take 1 (ctrl_pts_of_samples r)
         = zip (xs_of r) (ys_of r)).
Proof.
  intros Hr. split; [unfold on_slider_change; by rewrite Hr|].
  split.
  - intros ->. simpl in Hr. by injection Hr as <-.
  - intros Hne.
    destruct (spline_sample_closed_arrays _ _ _ _ _ _ Hr Hne)
      as (xp & yp & vp & Hx & Hy & _ & Hxs & Hys & _).
    unfold ctrl_pts_of_samples. rewrite Hxs, Hys, !closed_drop_last.
    split; [rewrite length_zip_with; lia|].
    symmetry. apply closed_zip. lia.
Qed.

Lemma on_slider_change_control_points_witness :
  on_slider_change periodic_spline rect_ptsQ 4 const_initial 28%Q
  = Ok [(0, 0); (7, 0); (8, 6); (1, 6)]%Q.
Proof.
  assert (Hr : exists r, spline_sample_closed periodic_spline rect_ptsQ 4
                  (fun s => Ok (const_initial s)) 28%Q = Ok r
                /\ ctrl_pts_of_samples r = [(0, 0); (7, 0); (8, 6); (1, 6)]%Q).
  { eexists. split; vm_compute; reflexivity. }
  destruct Hr as (r & Hr & <-).
  exact (proj1 (on_slider_change_control_points periodic_spline rect_ptsQ 4
                  const_initial 28%Q r Hr)).
Defined.

Section DisplayFacts.
Context {T : Type} {A : Arith T}.
Variable CubicSpline : list T -> list T -> result (T -> T).
Implicit Types (pts : list (point T)) (r : samples T).

(** With a velocity source that raises nothing, the sampler can only fail
    in the periodic fit. *)
Lemma spline_sample_closed_total_source pts (n : nat) (cs : T -> T) (s_max : T) :
  (degenerate pts = true ->
   exists r, spline_sample_closed CubicSpline pts n (fun s => Ok (cs s)) s_max = Ok r)
  /\ (forall e,
        spline_sample_closed CubicSpline pts n (fun s => Ok (cs s)) s_max = Raise e ->
        degenerate pts = false
        /\ exists vcol,
             v_final_for_y_ctrl pts (fun s => Ok (cs s)) s_max = Ok vcol
             /\ cs_all_fit CubicSpline pts vcol = Raise e).
Proof.
  split.
  - intros Hdeg. destruct pts as [|p0 rest]; [by eexists|].
    rewrite spline_sample_closed_constant_branch by done. by eexists.
  - intros e He. destruct (degenerate pts) eqn:Hdeg.
    + destruct pts as [|p0 rest]; [done|].
      by rewrite spline_sample_closed_constant_branch in He.
    + split; [done|].
      rewrite spline_sample_closed_fit_branch in He by done.
      destruct (v_final_for_y_ctrl_total pts cs s_max) as [vcol Hv].
      exists vcol. split; [done|]. rewrite Hv in He. simpl in He.
      destruct (cs_all_fit CubicSpline pts vcol) as [f|e']; simpl in He; congruence.
Qed.

Lemma spline_sample_closed_lengths pts (n : nat) (cs_vel : T -> result T)
    (s_max : T) r :
  spline_sample_closed CubicSpline pts n cs_vel s_max = Ok r ->
  pts <> [] -> 1 <= n ->
  (length (xs_of r) = n + 1 /\ length (ys_of r) = n + 1
   /\ length (vs_of r) = n + 1 /\ length (S_of r) = n + 1)
  /\ head (xs_of r) = last (xs_of r) /\ head (ys_of r) = last (ys_of r)
  /\ head (vs_of r) = last (vs_of r) /\ head (S_of r) = Some zero.
Proof.
  intros Hr Hne Hn.
  destruct (spline_sample_closed_arrays _ _ _ _ _ _ Hr Hne)
    as (xp & yp & vp & Hx & Hy & Hv & -> & -> & -> & HS).
  destruct (HS Hn) as [HSlen HS0].
  rewrite !closed_length, Hx, Hy, Hv.
  repeat split; try done; try lia; apply closed_head_last.
Qed.

End DisplayFacts.

(** X5: [handle_velocity_drag] can only fail in a spline fit: the refit of
    the velocity source, or the periodic fit of the path; evaluating the
    refitted source raises nothing.  With at most one velocity control point
    and a degenerate path it cannot fail.  When it returns, the samples handed
    to the plots are empty for no control point, and otherwise have
    [max(200, 10 * len(ctrl_pts)) + 1] entries in each array, closed and with
    arc length starting at zero. *)
Theorem handle_velocity_drag_outcomes {T : Type} {A : Arith T}
    (CubicSpline : list T -> list T -> result (T -> T))
    (ctrl_pts : list (point T)) (s_max : T) (s_coords v_coords : list T) :
  (forall (cs : T -> T) (r : samples T),
      handle_velocity_drag CubicSpline ctrl_pts s_max s_coords v_coords = Ok (cs, r) ->
      velocity_source CubicSpline s_coords v_coords = Ok cs
      /\ (ctrl_pts = [] -> r = ([], [], [], []))
      /\ (ctrl_pts <> [] ->
          let n := max 200 (length ctrl_pts * 10) in
          (length (xs_of r) = n + 1 /\ length (ys_of r) = n + 1
           /\ length (vs_of r) = n + 1 /\ length (S_of r) = n + 1)
          /\ head (xs_of r) = last (xs_of r) /\ head (ys_of r) = last (ys_of r)
          /\ head (vs_of r) = last (vs_of r) /\ head (S_of r) = Some zero))
  /\ (forall e : exn,
        handle_velocity_drag CubicSpline ctrl_pts s_max s_coords v_coords = Raise e ->
        velocity_source CubicSpline s_coords v_coords = Raise e
        \/ exists (cs : T -> T) (vcol : list T),
             velocity_source CubicSpline s_coords v_coords = Ok cs
             /\ degenerate ctrl_pts = false
             /\ v_final_for_y_ctrl ctrl_pts (fun s => Ok (cs s)) s_max = Ok vcol
             /\ cs_all_fit CubicSpline ctrl_pts vcol = Raise e)
  /\ (length s_coords <= 1 -> degenerate ctrl_pts = true ->
      exists (cs : T -> T) (r : samples T),
        handle_velocity_drag CubicSpline ctrl_pts s_max s_coords v_coords = Ok (cs, r)).
Proof.
  unfold handle_velocity_drag, display_samples. split; [|split].
  - intros cs r H.
    destruct (velocity_source CubicSpline s_coords v_coords) as [cs'|]; [|done].
    simpl in H.
    destruct (spline_sample_closed _ _ _ _ _) as [r'|] eqn:Hr; [|done].
    simpl in H. injection H as <- <-.
    split; [done|]. split.
    + intros ->. simpl in Hr. by injection Hr as <-.
    + intros Hne. cbv zeta. eapply spline_sample_closed_lengths; eauto. lia.
  - intros e H.
    destruct (velocity_source CubicSpline s_coords v_coords) as [cs'|e'] eqn:Hcs;
      [|left; simpl in H; congruence].
    simpl in H. right.
    destruct (spline_sample_closed _ _ _ _ _) as [r'|e'] eqn:Hr; [done|].
    simpl in H. injection H as ->.
    apply spline_sample_closed_total_source in Hr as (Hdeg & vcol & Hv & Hfit).
    exists cs', vcol. done.
  - intros Hs Hdeg. unfold velocity_source.
    destruct (1 <? length s_coords) eqn:E; [apply Nat.ltb_lt in E; lia|].
    destruct (spline_sample_closed_total_source CubicSpline ctrl_pts
                (max 200 (length ctrl_pts * 10))
                (if length s_coords =? 1 then fun _ => nth 0 v_coords zero
                 else fun _ => zero) s_max) as [Hok _].
    destruct (Hok Hdeg) as [r Hr].
    destruct (length s_coords =? 1); simpl; rewrite Hr; simpl; by eexists _, _.
Qed.

(** ** The exported table *)

Section ExportFacts.
Context {T : Type} {A : Arith T}.

Lemma rows_of_columns (S x y psi kappa vx ax : list T) :
  length x = length S -> length y = length S -> length psi = length S ->
  length kappa = length S -> length vx = length S -> length ax = length S ->
  map s_m (rows_of S x y psi kappa vx ax) = S
  /\ map x_m (rows_of S x y psi kappa vx ax) = x
  /\ map y_m (rows_of S x y psi kappa vx ax) = y
  /\ map psi_rad (rows_of S x y psi kappa vx ax) = psi
  /\ map kappa_radpm (rows_of S x y psi kappa vx ax) = kappa
  /\ map vx_mps (rows_of S x y psi kappa vx ax) = vx
  /\ map ax_mps2 (rows_of S x y psi kappa vx ax) = ax.
Proof.
  revert x y psi kappa vx ax.
  induction S as [|s S IH]; intros x y psi kappa vx ax Hx Hy Hp Hk Hv Ha.
  - destruct x, y, psi, kappa, vx, ax; done.
  - destruct x as [|a x], y as [|b y], psi as [|p psi], kappa as [|k kappa],
      vx as [|v vx], ax as [|c ax]; try done.
    simpl in *.
    destruct (IH x y psi kappa vx ax) as (H1 & H2 & H3 & H4 & H5 & H6 & H7);
      try lia.
    by rewrite H1, H2, H3, H4, H5, H6, H7.
Qed.

Lemma head_of_map {X Y : Type} (f : X -> Y) (l : list X) :
  f <$> head l = head (map f l).
Proof. by destruct l. Qed.

Lemma last_of_map {X Y : Type} (f : X -> Y) (l : list X) :
  f <$> last l = last (map f l).
Proof.
  induction l as [|a [|b l] IH]; [done | done |].
  change (last (a :: b :: l)) with (last (b :: l)).
  change (last (map f (a :: b :: l))) with (last (map f (b :: l))). exact IH.
Qed.

Lemma data_frame_rows (S x y psi kappa vx ax : list T) :
  length x = length S -> length y = length S -> length psi = length S ->
  length kappa = length S -> length vx = length S -> length ax = length S ->
  data_frame S x y psi kappa vx ax = Ok (rows_of S x y psi kappa vx ax).
Proof.
  intros Hx Hy Hp Hk Hv Ha. unfold data_frame. simpl.
  by rewrite Hx, Hy, Hp, Hk, Hv, Ha, !Nat.eqb_refl.
Qed.

End ExportFacts.

(** X6: [save_csv] with no control point raises ValueError, as the gradient
    of an empty array does.  With control points, whenever the sampler
    returns, the exported table has 1001 rows; its arc-length, x, y and
    velocity columns are the sampler's arrays, so that the first and last rows
    agree in x, y and velocity and the first arc length is zero; and the
    export can only fail when the sampler does. *)
Theorem save_csv_table_rows {T : Type} {A : Arith T}
    (CubicSpline : list T -> list T -> result (T -> T))
    (pow15 : T -> T) (arctan2 : T -> T -> T)
    (ctrl_pts : list (point T)) (cs_vel_current : T -> T) (s_max : T) :
  (ctrl_pts = [] ->
   save_csv_table CubicSpline pow15 arctan2 ctrl_pts cs_vel_current s_max
   = Raise ValueError)
  /\ (ctrl_pts <> [] ->
      forall r : samples T,
        spline_sample_closed CubicSpline ctrl_pts 1000
          (fun s => Ok (cs_vel_current s)) s_max = Ok r ->
        exists rows : list (row T),
          save_csv_table CubicSpline pow15 arctan2 ctrl_pts cs_vel_current s_max
          = Ok rows
          /\ length rows = 1001
          /\ map s_m rows = S_of r /\ map x_m rows = xs_of r
          /\ map y_m rows = ys_of r /\ map vx_mps rows = vs_of r
          /\ x_m <$> head rows = x_m <$> last rows
          /\ y_m <$> head rows = y_m <$> last rows
          /\ vx_mps <$> head rows = vx_mps <$> last rows
          /\ s_m <$> head rows = Some zero)
  /\ (ctrl_pts <> [] ->
      forall e : exn,
        save_csv_table CubicSpline pow15 arctan2 ctrl_pts cs_vel_current s_max
        = Raise e ->
        spline_sample_closed CubicSpline ctrl_pts 1000
          (fun s => Ok (cs_vel_current s)) s_max = Raise e).
Proof.
  assert (Hok : ctrl_pts <> [] ->
      forall r : samples T,
        spline_sample_closed CubicSpline ctrl_pts 1000
          (fun s => Ok (cs_vel_current s)) s_max = Ok r ->
        exists rows : list (row T),
          save_csv_table CubicSpline pow15 arctan2 ctrl_pts cs_vel_current s_max
          = Ok rows
          /\ length rows = 1001
          /\ map s_m rows = S_of r /\ map x_m rows = xs_of r
          /\ map y_m rows = ys_of r /\ map vx_mps rows = vs_of r
          /\ x_m <$> head rows = x_m <$> last rows
          /\ y_m <$> head rows = y_m <$> last rows
          /\ vx_mps <$> head rows = vx_mps <$> last rows
          /\ s_m <$> head rows = Some zero).
  { intros Hne r Hr.
    destruct (spline_sample_closed_lengths _ _ _ _ _ _ Hr Hne)
      as ((Lx & Ly & Lv & LS) & Cx & Cy & Cv & S0); [lia|].
    unfold save_csv_table. rewrite Hr. simpl.
    destruct (np_gradient_rows (xs_of r)) as (dx & -> & Hdx); [lia|].
    destruct (np_gradient_rows (ys_of r)) as (dy & -> & Hdy); [lia|]. simpl.
    destruct (curvature_rows pow15 (xs_of r) (ys_of r)) as (kappa & -> & Hk);
      [lia | lia |]. simpl.
    destruct (np_gradient_rows (vs_of r)) as (ax & -> & Hax); [lia|]. simpl.
    set (psi := zip_with arctan2 dy dx).
    assert (Hpsi : length psi = length (S_of r)).
    { unfold psi. rewrite length_zip_with. lia. }
    rewrite data_frame_rows by lia.
    destruct (rows_of_columns (S_of r) (xs_of r) (ys_of r) psi kappa (vs_of r) ax)
      as (H1 & H2 & H3 & _ & _ & H6 & _); try lia.
    set (rows := rows_of _ _ _ _ _ _ _) in *.
    exists rows. split; [done|].
    split; [rewrite <- (length_map s_m), H1; lia|].
    repeat split; try done.
    - by rewrite head_of_map, last_of_map, H2.
    - by rewrite head_of_map, last_of_map, H3.
    - by rewrite head_of_map, last_of_map, H6.
    - by rewrite head_of_map, H1. }
  split; [|split; [exact Hok|]].
  - intros ->. reflexivity.
  - intros Hne e He.
    destruct (spline_sample_closed CubicSpline ctrl_pts 1000 _ s_max)
      as [r|e'] eqn:Hr.
    + destruct (Hok Hne r eq_refl) as (rows & Hrows & _). congruence.
    + unfold save_csv_table in He. rewrite Hr in He. simpl in He. congruence.
Qed.

Lemma save_csv_table_rows_witness :
  exists rows : list (row Q),
    save_csv_table periodic_spline (fun x : Q => x) (fun y x : Q => y)
      rect_ptsQ const_initial 28%Q = Ok rows
    /\ length rows = 1001.
Proof.
  destruct (save_csv_table_rows periodic_spline (fun x : Q => x) (fun y x : Q => y)
              rect_ptsQ const_initial 28%Q) as (_ & Hok & _).
  assert (Hr : exists r, spline_sample_closed periodic_spline rect_ptsQ 1000
                  (fun s => Ok (const_initial s)) 28%Q = Ok r).
  { rewrite spline_sample_closed_fit_branch by (vm_compute; reflexivity).
    assert (Hv : v_final_for_y_ctrl rect_ptsQ (fun s => Ok (const_initial s)) 28%Q
                 = Ok [5; 5; 5; 5; 5]%Q) by (vm_compute; reflexivity).
    rewrite Hv. cbn [rbind].
    assert (Hfit : exists f, cs_all_fit periodic_spline rect_ptsQ [5; 5; 5; 5; 5]%Q
                             = Ok f) by (eexists; vm_compute; reflexivity).
    destruct Hfit as [f ->]. cbn [rbind]. eexists. reflexivity. }
  destruct Hr as [r Hr].
  destruct (Hok ltac:(discriminate) r Hr) as (rows & Hrows & Hlen & _).
  exists rows. split; assumption.
Defined.

(** ** Resetting the velocities *)

Section ResetFacts.
Context {T : Type} {A : Arith T}.
Variable CubicSpline : list T -> list T -> result (T -> T).
Implicit Types (a : list T) (static_pts ctrl_pts : list (point T)).

Lemma rmap_lookup {X Y : Type} (f : X -> result Y) (l : list X) (out : list Y) :
  rmap f l = Ok out ->
  length out = length l
  /\ forall i x, l !! i = Some x -> exists y, f x = Ok y /\ out !! i = Some y.
Proof.
  revert out. induction l as [|x l IH]; intros out H; simpl in H.
  - injection H as <-. split; [done | intros i x Hx; by destruct i].
  - destruct (f x) as [y|] eqn:Hfx; [|done]. simpl in H.
    destruct (rmap f l) as [ys|]; [|done]. simpl in H. injection H as <-.
    destruct (IH ys eq_refl) as [Hlen Hlook].
    split; [simpl; by rewrite Hlen|].
    intros [|i] x' Hx'; simpl in *.
    + injection Hx' as <-. by exists y.
    + by apply Hlook.
Qed.

Lemma rmap_all_ok {X Y : Type} (f : X -> result Y) (l : list X) :
  (forall x, x ∈ l -> exists y, f x = Ok y) -> exists out, rmap f l = Ok out.
Proof.
  induction l as [|x l IH]; intros Hall; simpl; [by eexists|].
  destruct (Hall x) as [y ->]; [by left|].
  destruct IH as [ys ->]; [intros x' Hx'; apply Hall; by right|].
  simpl. by eexists.
Qed.

(** The scan of [np.argmin] stays inside the array. *)
Lemma argmin_scan_bound (l : list T) (mp : T) (min_ind i : nat) :
  min_ind < i -> argmin_scan mp min_ind i l < i + length l.
Proof.
  revert mp min_ind i. induction l as [|x l IH]; intros mp min_ind i Hi; simpl.
  - lia.
  - destruct (leb mp x).
    + specialize (IH mp min_ind (S i)). lia.
    + destruct (eqb x x); [|lia]. specialize (IH x i (S i)). lia.
Qed.

Lemma np_argmin_bound a (k : nat) : np_argmin a = Ok k -> k < length a.
Proof.
  destruct a as [|x a]; [done|]. simpl. intros [= <-].
  destruct (eqb x x); [|lia].
  pose proof (argmin_scan_bound a x 0 1). lia.
Qed.

Lemma np_argmin_nonempty a : a <> [] -> exists k, np_argmin a = Ok k.
Proof. destruct a; [done|]. intros _. by eexists. Qed.

Context {L : ArithLaws A}.

Lemma argmin_scan_first_min (pre l : list T) (m : T) (k : nat) :
  (pre ++ l) !! k = Some m ->
  k < length pre ->
  (forall j x, j < length pre -> (pre ++ l) !! j = Some x -> leb m x = true) ->
  (forall j x, j < k -> (pre ++ l) !! j = Some x -> leb x m = false) ->
  let r := argmin_scan m k (length pre) l in
  exists d, (pre ++ l) !! r = Some d
    /\ (forall j x, (pre ++ l) !! j = Some x -> leb d x = true)
    /\ (forall j x, j < r -> (pre ++ l) !! j = Some x -> leb x d = false).
Proof.
  revert pre m k. induction l as [|y l IH]; intros pre m k Hm Hk Hleast Hfirst.
  - simpl. exists m. split; [done|]. split; [|done].
    intros j x Hx. apply (Hleast j x); [|done].
    apply lookup_lt_Some in Hx. rewrite length_app in Hx. simpl in Hx. lia.
  - assert (Happ : pre ++ y :: l = (pre ++ [y]) ++ l) by (by rewrite <- app_assoc).
    assert (Hy : (pre ++ y :: l) !! length pre = Some y).
    { rewrite lookup_app_r by lia. by rewrite Nat.sub_diag. }
    simpl. rewrite Happ in *.
    replace (S (length pre)) with (length (pre ++ [y]))
      by (rewrite length_app; simpl; lia).
    destruct (leb m y) eqn:E.
    + apply (IH (pre ++ [y]) m k).
      * done.
      * rewrite length_app. simpl. lia.
      * intros j x Hj Hx. rewrite length_app in Hj. simpl in Hj.
        destruct (decide (j = length pre)) as [->|Hne]; [congruence|].
        apply (Hleast j x); [lia | done].
      * done.
    + rewrite eqb_refl.
      assert (Hym : leb y m = true) by (by apply leb_total).
      apply (IH (pre ++ [y]) y (length pre)).
      * done.
      * rewrite length_app. simpl. lia.
      * intros j x Hj Hx. rewrite length_app in Hj. simpl in Hj.
        destruct (decide (j = length pre)) as [->|Hne].
        { replace x with y by congruence. apply leb_refl. }
        eapply leb_trans; [exact Hym|]. apply (Hleast j x); [lia | done].
      * intros j x Hj Hx.
        destruct (leb x y) eqn:Exy; [|done].
        assert (leb m y = true); [|congruence].
        eapply leb_trans; [|exact Exy]. apply (Hleast j x); [lia | done].
Qed.

(** [np.argmin] returns the first index of least value. *)
Lemma np_argmin_first_min a (k : nat) :
  np_argmin a = Ok k ->
  exists d, a !! k = Some d
    /\ (forall j x, a !! j = Some x -> leb d x = true)
    /\ (forall j x, j < k -> a !! j = Some x -> leb x d = false).
Proof.
  destruct a as [|x a]; [done|]. simpl. rewrite eqb_refl. intros [= <-].
  apply (argmin_scan_first_min [x] a x 0); [done | simpl; lia | | intros; lia].
  intros [|j] z Hj Hz; simpl in *; [|lia].
  replace z with x by congruence. apply leb_refl.
Qed.

Lemma set_last_to_first_lookup (v : list T) (i : nat) :
  i <> length v - 1 -> set_last_to_first v !! i = v !! i.
Proof.
  intros Hi. destruct v as [|a v]; [done|]. unfold set_last_to_first.
  by rewrite list_lookup_insert_ne.
Qed.

Lemma update_positions_lookup (s v : list T) (i : nat) :
  i < length v - 1 \/ length v = 1 ->
  v_coords (update_positions s v) !! i = v !! i.
Proof.
  intros Hi. unfold update_positions. simpl.
  destruct (1 <? length v) eqn:E; [|done].
  apply Nat.ltb_lt in E. apply set_last_to_first_lookup. lia.
Qed.

End ResetFacts.

Section ResetTheorems.
Context {T : Type} {A : Arith T}.
Variable CubicSpline : list T -> list T -> result (T -> T).
Implicit Types (static_pts ctrl_pts : list (point T)) (v_orig : list T).

(** What a completed reset leaves, without the laws of arithmetic. *)
Lemma reset_velocity_profile_arrays static_pts v_orig ctrl_pts
    (dv : vel_scatter T) (cs : T -> T) :
  reset_velocity_profile CubicSpline static_pts v_orig ctrl_pts = Ok (dv, cs) ->
  exists v_new : list T,
    rmap (nearest_static_velocity static_pts v_orig) ctrl_pts = Ok v_new
    /\ s_coords dv = get_arc_lengths_for_path_ctrl_pts ctrl_pts
    /\ length (v_coords dv) = length ctrl_pts
    /\ (exists w, length w = length ctrl_pts
          /\ Forall (fun x => exists y, x = np_maximum zero y) w
          /\ v_coords dv = v_coords (update_positions (s_coords dv) w))
    /\ forall i, i < length ctrl_pts - 1 \/ length ctrl_pts = 1 ->
         v_coords dv !! i = np_maximum zero <$> v_new !! i.
Proof.
  unfold reset_velocity_profile.
  destruct (rmap _ ctrl_pts) as [v_new|] eqn:Hmap; [|done]. simpl.
  destruct (rmap_lookup _ _ _ Hmap) as [Hlen _].
  pose proof (get_arc_lengths_length ctrl_pts) as Hs.
  set (s_ctrl := get_arc_lengths_for_path_ctrl_pts ctrl_pts) in *.
  set (w := map (np_maximum zero) v_new).
  assert (Hw : length w = length ctrl_pts) by (unfold w; by rewrite length_map).
  assert (Hclamped : Forall (fun x => exists y, x = np_maximum zero y) w).
  { unfold w. apply Forall_map, Forall_true. intros y. by exists y. }
  assert (Hlook : forall i, w !! i = np_maximum zero <$> v_new !! i).
  { intros i. unfold w. apply list_lookup_fmap. }
  intros H. exists v_new. split; [done|].
  destruct (1 <? length s_ctrl) eqn:E.
  - apply Nat.ltb_lt in E.
    destruct (CubicSpline _ _) as [f|]; [|done]. simpl in H.
    injection H as <- _. split; [done|].
    split; [by rewrite update_positions_v_length, set_last_to_first_length|].
    split.
    + exists (set_last_to_first w).
      split; [by rewrite set_last_to_first_length|].
      split; [by apply set_last_to_first_Forall | done].
    + intros i Hi.
      rewrite update_positions_lookup
        by (rewrite set_last_to_first_length; lia).
      rewrite set_last_to_first_lookup by lia. apply Hlook.
  - assert (Hdv : dv = update_positions s_ctrl w).
    { destruct (length s_ctrl =? 1); by injection H as <- _. }
    subst dv. split; [done|].
    split; [by rewrite update_positions_v_length|].
    split; [by exists w|].
    intros i Hi. rewrite update_positions_lookup by lia. apply Hlook.
Qed.

(** With static waypoints that all have a velocity, the loop of the reset
    raises nothing. *)
Lemma nearest_static_velocity_total static_pts v_orig (p : point T) :
  static_pts <> [] -> length v_orig = length static_pts ->
  exists v, nearest_static_velocity static_pts v_orig p = Ok v.
Proof.
  intros Hne Hlen. unfold nearest_static_velocity.
  destruct (length static_pts =? 0) eqn:E0.
  { apply Nat.eqb_eq in E0. by destruct static_pts. }
  destruct (np_argmin_nonempty (static_dists static_pts p)) as [k Hk].
  { unfold static_dists. by destruct static_pts. }
  rewrite Hk. simpl. apply np_argmin_bound in Hk.
  unfold static_dists in Hk. rewrite length_map in Hk.
  destruct (lookup_lt_is_Some_2 v_orig k) as [v ->];
    [rewrite Hlen; exact Hk|]. by exists v.
Qed.

End ResetTheorems.

(** X7: after a completed velocity reset the profile sits on the arc lengths
    of the control points, has one velocity for each of them, is closed and
    nowhere below zero; and every velocity, except the last of two or more,
    which repeats the first, is the clamped original velocity of the first
    nearest static waypoint. *)
Theorem reset_velocity_profile_nearest {T : Type} {A : Arith T} (L : ArithLaws A)
    (CubicSpline : list T -> list T -> result (T -> T))
    (static_pts : list (point T)) (v_orig : list T) (ctrl_pts : list (point T))
    (dv : vel_scatter T) (cs : T -> T) :
  reset_velocity_profile CubicSpline static_pts v_orig ctrl_pts = Ok (dv, cs) ->
  s_coords dv = get_arc_lengths_for_path_ctrl_pts ctrl_pts
  /\ length (v_coords dv) = length ctrl_pts
  /\ periodic_nonneg (v_coords dv)
  /\ forall (i : nat) (p : point T),
       ctrl_pts !! i = Some p ->
       i < length ctrl_pts - 1 \/ length ctrl_pts = 1 ->
       exists (k : nat) (d v : T),
         static_dists static_pts p !! k = Some d
         /\ v_orig !! k = Some v
         /\ v_coords dv !! i = Some (np_maximum zero v)
         /\ (forall j d', static_dists static_pts p !! j = Some d' ->
                          leb d d' = true)
         /\ (forall j d', j < k -> static_dists static_pts p !! j = Some d' ->
                          leb d' d = false).
Proof.
  intros Hreset.
  destruct (reset_velocity_profile_arrays _ _ _ _ _ _ Hreset)
    as (v_new & Hmap & Hs & Hlen & (w & Hw & Hclamped & Hvw) & Hlook).
  split; [done|]. split; [done|]. split.
  - rewrite Hvw. apply update_positions_invariant.
    eapply Forall_impl; [exact Hclamped|]. intros x [y ->].
    apply np_maximum_zero_nonneg.
  - intros i p Hp Hi.
    destruct (rmap_lookup _ _ _ Hmap) as [_ Hvals].
    destruct (Hvals i p Hp) as (v & Hv & Hvi).
    unfold nearest_static_velocity in Hv.
    destruct (length static_pts =? 0); [done|].
    destruct (np_argmin (static_dists static_pts p)) as [k|] eqn:Hk; [|done].
    simpl in Hv. destruct (v_orig !! k) as [v'|] eqn:Hvk; [|done].
    injection Hv as ->.
    destruct (np_argmin_first_min _ _ Hk) as (d & Hd & Hleast & Hfirst).
    exists k, d, v. repeat split; try done.
    by rewrite Hlook, Hvi.
Qed.

Lemma reset_velocity_profile_nearest_witness :
  exists (dv : vel_scatter Q) (cs : Q -> Q),
    reset_velocity_profile periodic_spline static_ptsQ v_origQ pentagon_ptsQ
      = Ok (dv, cs)
    /\ v_coords dv = [3; 4; 6; 6; 3]%Q
    /\ periodic_nonneg (v_coords dv).
Proof.
  assert (H : exists dv cs,
             reset_velocity_profile periodic_spline static_ptsQ v_origQ pentagon_ptsQ
               = Ok (dv, cs) /\ v_coords dv = [3; 4; 6; 6; 3]%Q).
  { eexists. eexists. split; vm_compute; reflexivity. }
  destruct H as (dv & cs & Hreset & Hv).
  exists dv, cs. split; [exact Hreset|]. split; [exact Hv|].
  exact (proj1 (proj2 (proj2
    (reset_velocity_profile_nearest exactQ_laws periodic_spline static_ptsQ v_origQ
       pentagon_ptsQ dv cs Hreset)))).
Defined.

(** With static waypoints that all have a velocity, the velocity part of a
    reset can only fail in the refit of the velocity spline, which it
    attempts only for two or more control points. *)
Lemma reset_velocity_profile_refit {T : Type} {A : Arith T}
    (CubicSpline : list T -> list T -> result (T -> T))
    (static_pts : list (point T)) (v_orig : list T) (ctrl_pts : list (point T)) :
  static_pts <> [] ->
  length v_orig = length static_pts ->
  (forall e : exn,
      reset_velocity_profile CubicSpline static_pts v_orig ctrl_pts = Raise e ->
      1 < length ctrl_pts
      /\ exists v_new : list T,
           length v_new = length ctrl_pts
           /\ CubicSpline (get_arc_lengths_for_path_ctrl_pts ctrl_pts) v_new = Raise e)
  /\ (length ctrl_pts <= 1 ->
      exists (dv : vel_scatter T) (cs : T -> T),
        reset_velocity_profile CubicSpline static_pts v_orig ctrl_pts = Ok (dv, cs)).
Proof.
  intros Hne Hlen.
  destruct (rmap_all_ok (nearest_static_velocity static_pts v_orig) ctrl_pts)
    as [v_new Hmap].
  { intros p _. by apply nearest_static_velocity_total. }
  destruct (rmap_lookup _ _ _ Hmap) as [Hv _].
  pose proof (get_arc_lengths_length ctrl_pts) as Hs.
  unfold reset_velocity_profile. rewrite Hmap. cbn [rbind]. split.
  - intros e H.
    destruct (1 <? length (get_arc_lengths_for_path_ctrl_pts ctrl_pts)) eqn:E.
    + apply Nat.ltb_lt in E. split; [lia|].
      exists (set_last_to_first (map (np_maximum zero) v_new)).
      split; [by rewrite set_last_to_first_length, length_map|].
      destruct (CubicSpline _ _) as [f|e']; simpl in H; congruence.
    + by destruct (length (get_arc_lengths_for_path_ctrl_pts ctrl_pts) =? 1).
  - intros Hctrl.
    destruct (1 <? length (get_arc_lengths_for_path_ctrl_pts ctrl_pts)) eqn:E;
      [apply Nat.ltb_lt in E; lia|].
    destruct (length (get_arc_lengths_for_path_ctrl_pts ctrl_pts) =? 1);
      by eexists _, _.
Qed.

Lemma degenerate_short {T : Type} {A : Arith T} (pts : list (point T)) :
  length pts <= 1 -> degenerate pts = true.
Proof. destruct pts as [|p0 [|p1 pts]]; simpl; [done | done | lia]. Qed.

(** X8: when there are static waypoints, each with a velocity, the whole of
    [reset_velocity_profile] can fail in two places only, both reached only
    with two or more control points: in the refit of the velocity spline,
    before the scatter is touched, or, after the scatter and the velocity
    source have been replaced, in the periodic fit of the path that the
    sampling for display makes.  With at most one control point it
    returns. *)
Theorem reset_velocity_profile_failures {T : Type} {A : Arith T}
    (CubicSpline : list T -> list T -> result (T -> T))
    (static_pts : list (point T)) (v_orig : list T) (ctrl_pts : list (point T))
    (s_max : T) :
  static_pts <> [] ->
  length v_orig = length static_pts ->
  (forall e : exn,
      reset_velocity_profile_display CubicSpline static_pts v_orig ctrl_pts s_max
        = Raise e ->
      1 < length ctrl_pts
      /\ ((reset_velocity_profile CubicSpline static_pts v_orig ctrl_pts = Raise e
           /\ exists v_new : list T,
                length v_new = length ctrl_pts
                /\ CubicSpline (get_arc_lengths_for_path_ctrl_pts ctrl_pts) v_new
                   = Raise e)
          \/ (exists (dv : vel_scatter T) (cs : T -> T) (vcol : list T),
                reset_velocity_profile CubicSpline static_pts v_orig ctrl_pts
                  = Ok (dv, cs)
                /\ degenerate ctrl_pts = false
                /\ v_final_for_y_ctrl ctrl_pts (fun s => Ok (cs s)) s_max = Ok vcol
                /\ cs_all_fit CubicSpline ctrl_pts vcol = Raise e)))
  /\ (length ctrl_pts <= 1 ->
      exists (dv : vel_scatter T) (cs : T -> T) (r : samples T),
        reset_velocity_profile_display CubicSpline static_pts v_orig ctrl_pts s_max
          = Ok (dv, cs, r)).
Proof.
  intros Hne Hlen.
  destruct (reset_velocity_profile_refit CubicSpline static_pts v_orig ctrl_pts
              Hne Hlen) as [Hfail Hshort].
  unfold reset_velocity_profile_display. split.
  - intros e H.
    destruct (reset_velocity_profile CubicSpline static_pts v_orig ctrl_pts)
      as [[dv cs]|e'] eqn:Hreset.
    + cbn [rbind fst snd] in H. unfold display_samples in H.
      destruct (spline_sample_closed _ _ _ _ _) as [r|e''] eqn:Hr; [done|].
      cbn [rbind] in H. injection H as ->.
      destruct (proj2 (spline_sample_closed_total_source CubicSpline ctrl_pts _ cs
                         s_max) e Hr) as (Hdeg & vcol & Hv & Hfit).
      split.
      * destruct (decide (1 < length ctrl_pts)) as [|Hle]; [done|].
        rewrite degenerate_short in Hdeg by lia. done.
      * right. by exists dv, cs, vcol.
    + cbn [rbind] in H. injection H as ->.
      destruct (Hfail e eq_refl) as [Hlong Hrefit].
      split; [done|]. by left.
  - intros Hctrl. destruct (Hshort Hctrl) as (dv & cs & ->).
    cbn [rbind fst snd]. unfold display_samples.
    destruct (proj1 (spline_sample_closed_total_source CubicSpline ctrl_pts
                       (max 200 (length ctrl_pts * 10)) cs s_max)
                (degenerate_short ctrl_pts Hctrl)) as [r ->].
    cbn [rbind]. by exists dv, cs, r.
Qed.

Lemma reset_velocity_profile_failures_witness :
  exists (dv : vel_scatter Q) (cs : Q -> Q) (r : samples Q),
    reset_velocity_profile_display periodic_spline static_ptsQ v_origQ [(1, 2)]%Q 0%Q
    = Ok (dv, cs, r).
Proof.
  apply (reset_velocity_profile_failures periodic_spline static_ptsQ v_origQ
           [(1, 2)]%Q 0%Q); [discriminate | reflexivity | simpl; lia].
Defined.

(** X9: every velocity profile reached by updates, drags and velocity resets
    is closed and nowhere below zero, and holds as many arc lengths as
    velocities. *)
Theorem profile_reachable_invariant {T : Type} {A : Arith T} (L : ArithLaws A)
    (CubicSpline : list T -> list T -> result (T -> T))
    (interp1d : list T -> list T -> T -> T) (np_mod : T -> T -> T)
    (cs_vel_initial : T -> T) (static_pts : list (point T)) (v_orig : list T)
    (dv : vel_scatter T) :
  profile_reachable CubicSpline interp1d np_mod cs_vel_initial static_pts v_orig dv ->
  periodic_nonneg (v_coords dv)
  /\ length (s_coords dv) = length (v_coords dv).
Proof.
  induction 1 as [ctrl_pts dv0 dv cs Hupd | dv i y _ [IHp IHl]
                 | ctrl_pts dv _ [IHp IHl] | ctrl_pts dv _ [IHp IHl]].
  - split.
    + by apply update_spline_velocity_invariant in Hupd as [? _].
    + apply update_spline_velocity_counts in Hupd as [-> ->]. done.
  - split; [by apply drag_invariant|]. simpl. by rewrite drag_length.
  - unfold after_update_spline.
    destruct (update_spline_velocity _ _ _ _ _ _) as [[dv' cs]|] eqn:E; [|done].
    split.
    + by apply update_spline_velocity_invariant in E as [? _].
    + apply update_spline_velocity_counts in E as [-> ->]. done.
  - unfold after_reset.
    destruct (reset_velocity_profile _ _ _ _) as [[dv' cs]|] eqn:E; [|done].
    destruct (reset_velocity_profile_arrays _ _ _ _ _ _ E)
      as (v_new & _ & Hs & Hlen & (w & Hw & Hclamped & Hvw) & _).
    split.
    + rewrite Hvw. apply update_positions_invariant.
      eapply Forall_impl; [exact Hclamped|]. intros x [z ->].
      apply np_maximum_zero_nonneg.
    + rewrite Hs, get_arc_lengths_length. done.
Qed.

Lemma profile_reachable_invariant_witness :
  let dv := after_reset periodic_spline static_ptsQ v_origQ pentagon_ptsQ
              (mouseMoveEvent
                 (after_update_spline periodic_spline interp_linear Qmod const_initial
                    pentagon_ptsQ rect_profileQ)
                 2 (7 # 2)%Q) in
  periodic_nonneg (v_coords dv) /\ length (s_coords dv) = length (v_coords dv).
Proof.
  apply (profile_reachable_invariant exactQ_laws periodic_spline interp_linear Qmod
           const_initial static_ptsQ v_origQ).
  apply profile_reset, profile_drag. unfold after_update_spline.
  destruct (update_spline_velocity periodic_spline interp_linear Qmod const_initial
              pentagon_ptsQ rect_profileQ) as [[dv cs]|e] eqn:E.
  - eapply profile_update. exact E.
  - vm_compute in E. discriminate E.
Defined.

(** ** The window *)

Lemma rbind_Ok {X Y : Type} (m : result X) (k : X -> result Y) (y : Y) :
  rbind m k = Ok y -> exists x, m = Ok x /\ k x = Ok y.
Proof. destruct m as [x|e]; [by exists x | done]. Qed.

Lemma is_ok_true {X : Type} (m : result X) :
  is_ok m = true -> exists x, m = Ok x.
Proof. destruct m as [x|e]; [by exists x | done]. Qed.

Section WindowFacts.
Context {T : Type} {A : Arith T}.
Variable CubicSpline : list T -> list T -> result (T -> T).
Variable CubicSpline_not_a_knot : list T -> list T -> result (T -> T).
Variable interp1d : list T -> list T -> T -> T.
Variable np_mod : T -> T -> T.

Lemma ctrl_pts_of_samples_length (pts : list (point T)) (n : nat)
    (cs_vel : T -> result T) (s_max : T) (r : samples T) :
  spline_sample_closed CubicSpline pts n cs_vel s_max = Ok r ->
  pts <> [] ->
  length (ctrl_pts_of_samples r) = n.
Proof.
  intros Hr Hne.
  destruct (spline_sample_closed_arrays _ _ _ _ _ _ Hr Hne)
    as (xp & yp & vp & Hx & Hy & _ & Hxs & Hys & _).
  unfold ctrl_pts_of_samples. rewrite Hxs, Hys, !closed_drop_last.
  rewrite length_zip_with. lia.
Qed.

(** A completed [update_spline] sets [s_max] to the length of the loop and
    leaves the scatter of its velocity part. *)
Lemma update_spline_parts (cs_vel_initial : T -> T) (ctrl_pts : list (point T))
    (dv dv' : vel_scatter T) (s_max : T) (cs : T -> T) (r : samples T) :
  update_spline CubicSpline interp1d np_mod cs_vel_initial ctrl_pts dv
    = Ok (s_max, dv', cs, r) ->
  s_max = loop_length ctrl_pts
  /\ update_spline_velocity CubicSpline interp1d np_mod cs_vel_initial ctrl_pts dv
     = Ok (dv', cs)
  /\ display_samples CubicSpline ctrl_pts cs s_max = Ok r.
Proof.
  unfold update_spline. intros H.
  apply rbind_Ok in H as ([dv1 cs1] & Hvel & H).
  apply rbind_Ok in H as (r1 & Hr & H).
  injection H as <- <- <- <-. done.
Qed.

Lemma update_spline_velocity_s_coords (cs_vel_initial : T -> T)
    (ctrl_pts : list (point T)) (dv0 dv : vel_scatter T) (cs : T -> T) :
  update_spline_velocity CubicSpline interp1d np_mod cs_vel_initial ctrl_pts dv0
    = Ok (dv, cs) ->
  s_coords dv = get_arc_lengths_for_path_ctrl_pts ctrl_pts.
Proof.
  unfold update_spline_velocity.
  destruct ctrl_pts as [|p0 rest]; [by intros [= <- _]|].
  destruct (1 <? length _).
  - destruct (CubicSpline _ _) as [f|]; [|done]. simpl. by intros [= <- _].
  - destruct (length _ =? 1); by intros [= <- _].
Qed.

Lemma fallback_static_pts_nonempty : fallback_static_pts (T := T) <> [].
Proof. done. Qed.

(** What [__init__] has set when it returns. *)
Lemma init_parts (df : list (waypoint T)) (w : window T) :
  init CubicSpline CubicSpline_not_a_knot interp1d np_mod df = Ok w ->
  df <> []
  /\ win_static_pts w = map (fun p => (wp_x_m p, wp_y_m p)) df
  /\ win_v_orig w = map wp_vx_mps df
  /\ length (win_ctrl_pts w) = 30
  /\ win_s_max w = loop_length (win_ctrl_pts w)
  /\ exists dv0 : vel_scatter T,
       update_spline_velocity CubicSpline interp1d np_mod (win_cs_vel_initial w)
         (win_ctrl_pts w) dv0
       = Ok (win_draggable_vel w, win_cs_vel_current w).
Proof.
  unfold init. intros H.
  apply rbind_Ok in H as (v_fs & _ & H).
  apply rbind_Ok in H as (cs_vel_initial & _ & H).
  apply rbind_Ok in H as (s_max & Hlast & H).
  assert (Hdf : df <> []) by (intros ->; done).
  apply rbind_Ok in H as (r & Hr & H).
  assert (Hlen : length (ctrl_pts_of_samples r) = 30).
  { eapply ctrl_pts_of_samples_length; [exact Hr|].
    destruct df; [apply fallback_static_pts_nonempty | done]. }
  apply rbind_Ok in H as (v_init & _ & H).
  apply rbind_Ok in H as ([[[s_max' dv'] cs] r'] & Hu & H).
  injection H as <-.
  apply update_spline_parts in Hu as (-> & Hvel & _).
  split; [done|]. split; [by destruct df|]. split; [done|]. split; [done|].
  split; [done|]. by eexists.
Qed.

End WindowFacts.



(** ** The mouse handlers of the path control points *)

Section ScatterFacts.
Context {T : Type} {A : Arith T}.
Variable update_callback : list (point T) -> result unit.
Implicit Types (sc : DraggableScatter.scatter T) (ev : DraggableScatter.event T).

(** One event, delivered while the drag index is in range: an exception can
    only be the callback's, and the handler keeps the drag index in range and
    changes the number of points by the one it removes or adds. *)
Lemma handle_delivered sc ev :
  DraggableScatter.drag_in_range sc ->
  DraggableScatter.delivered sc ev ->
  (forall e, DraggableScatter.handle update_callback sc ev = Raise e ->
             exists ps, update_callback ps = Raise e)
  /\ (forall sc', DraggableScatter.handle update_callback sc ev = Ok sc' ->
        DraggableScatter.drag_in_range sc'
        /\ length (DraggableScatter.positions sc')
           + (if DraggableScatter.is_remove ev then 1 else 0)
           = length (DraggableScatter.positions sc)
             + (if DraggableScatter.is_insert ev then 1 else 0)).
Proof.
  destruct sc as [ps di]. unfold DraggableScatter.drag_in_range. simpl.
  intros Hin Hdel.
  destruct ev as [hit left_button | left_down view_pt | | hit left_button view_pt];
    simpl in *.
  - split; [done|]. intros sc' [= <-].
    unfold DraggableScatter.mousePressEvent. simpl.
    destruct hit as [i|]; [destruct left_button|]; simpl; (split; [done | lia]).
  - unfold DraggableScatter.mouseMoveEvent. simpl.
    destruct di as [i|]; [|split; [done | intros sc' [= <-]; simpl; split; [done | lia]]].
    destruct left_down; [|split; [done | intros sc' [= <-]; simpl; split; [done | lia]]].
    apply Nat.ltb_lt in Hin as Hb. rewrite Hb.
    destruct (update_callback (<[i:=view_pt]> ps)) as [[]|e'] eqn:Hcb; simpl.
    + split; [done|]. intros sc' [= <-]. simpl.
      rewrite length_insert. split; [done | lia].
    + split; [|done]. intros e [= <-]. by eexists.
  - split; [done|]. intros sc' [= <-]. simpl. split; [done | lia].
  - unfold DraggableScatter.mouseDoubleClickEvent. simpl.
    destruct hit as [idx|].
    + destruct Hdel as [Hidx ->]. unfold py_pop.
      destruct (lookup_lt_is_Some_2 ps idx Hidx) as [p Hp]. rewrite Hp. simpl.
      destruct (update_callback (delete idx ps)) as [[]|e'] eqn:Hcb; simpl.
      * split; [done|]. intros sc' [= <-]. simpl. split; [done|].
        rewrite length_delete by (by eexists). lia.
      * split; [|done]. intros e [= <-]. by eexists.
    + destruct left_button;
        [|split; [done | intros sc' [= <-]; simpl; split; [done | lia]]].
      destruct (update_callback (insert_nearest ps view_pt)) as [[]|e'] eqn:Hcb;
        simpl.
      * split; [done|]. intros sc' [= <-]. simpl.
        unfold insert_nearest. rewrite py_insert_length.
        split; [destruct di; [lia | done] | lia].
      * split; [|done]. intros e [= <-]. by eexists.
Qed.

End ScatterFacts.



(** ** The path of the saved file *)

Section SavePathFacts.
Import String Ascii.
#[local] Open Scope string_scope.

Lemma string_length_append (s1 s2 : string) :
  String.length (s1 ++ s2) = String.length s1 + String.length s2.
Proof. induction s1 as [|c s1 IH]; simpl; [done | by rewrite IH]. Qed.

(** Without an occurrence of [old] nothing is replaced. *)
Lemma replace_from_absent (old new s : string) :
  py_in old s = false -> replace_from old new 0 s = s.
Proof.
  induction s as [|c s IH]; [done|].
  change (py_in old (String c s)) with (prefix old (String c s) || py_in old s).
  intros H. apply orb_false_iff in H as [Hp Hs].
  change (replace_from old new 0 (String c s))
    with (if prefix old (String c s)
          then new ++ replace_from old new (String.length old - 1) s
          else String c (replace_from old new 0 s)).
  rewrite Hp, IH by done. done.
Qed.

(** A replacement of [.csv] by [_modified.csv] never shortens. *)
Lemma replace_from_length (skip : nat) (s : string) :
  String.length s <= String.length (replace_from ".csv" "_modified.csv" skip s) + skip.
Proof.
  revert skip. induction s as [|c s IH]; intros skip; [simpl; lia|].
  destruct skip as [|k].
  - change (replace_from ".csv" "_modified.csv" 0 (String c s))
      with (if prefix ".csv" (String c s)
            then "_modified.csv" ++ replace_from ".csv" "_modified.csv" 3 s
            else String c (replace_from ".csv" "_modified.csv" 0 s)).
    destruct (prefix ".csv" (String c s)).
    + rewrite string_length_append. specialize (IH 3). simpl. simpl in IH. lia.
    + specialize (IH 0). simpl. lia.
  - change (replace_from ".csv" "_modified.csv" (S k) (String c s))
      with (replace_from ".csv" "_modified.csv" k s).
    specialize (IH k). simpl. lia.
Qed.

Lemma replace_from_longer (s : string) :
  py_in ".csv" s = true ->
  String.length s < String.length (replace_from ".csv" "_modified.csv" 0 s).
Proof.
  induction s as [|c s IH]; [done|].
  change (py_in ".csv" (String c s))
    with (prefix ".csv" (String c s) || py_in ".csv" s).
  change (replace_from ".csv" "_modified.csv" 0 (String c s))
    with (if prefix ".csv" (String c s)
          then "_modified.csv" ++ replace_from ".csv" "_modified.csv" 3 s
          else String c (replace_from ".csv" "_modified.csv" 0 s)).
  destruct (prefix ".csv" (String c s)).
  - intros _. rewrite string_length_append.
    pose proof (replace_from_length 3 s). simpl. simpl in H. lia.
  - intros H. specialize (IH H). simpl. lia.
Qed.

Lemma prefix_cons (a b : ascii) (s1 s2 : string) :
  prefix (String a s1) (String b s2) = true <-> a = b /\ prefix s1 s2 = true.
Proof.
  change (prefix (String a s1) (String b s2))
    with (if ascii_dec a b then prefix s1 s2 else false).
  destruct (ascii_dec a b); split; try done; by intros [? ?].
Qed.

(** [.csv] does not overlap itself: an occurrence that starts inside a stem
    lies inside the stem. *)
Lemma prefix_csv_in_stem (c : ascii) (stem rest : string) :
  prefix ".csv" (String c (stem ++ ".csv" ++ rest)) = true ->
  prefix ".csv" (String c stem) = true.
Proof.
  intros H. apply prefix_cons in H as [Hc H].
  apply prefix_cons. split; [done|].
  destruct stem as [|c1 stem]; cbn [append] in H;
    apply prefix_cons in H as [H1 H]; [discriminate H1|].
  apply prefix_cons. split; [done|].
  destruct stem as [|c2 stem]; cbn [append] in H;
    apply prefix_cons in H as [H2 H]; [discriminate H2|].
  apply prefix_cons. split; [done|].
  destruct stem as [|c3 stem]; cbn [append] in H;
    apply prefix_cons in H as [H3 H]; [discriminate H3|].
  apply prefix_cons. split; [done|]. by destruct stem.
Qed.

Lemma replace_from_stem (stem rest : string) :
  py_in ".csv" stem = false ->
  replace_from ".csv" "_modified.csv" 0 (stem ++ ".csv" ++ rest)
  = stem ++ "_modified.csv" ++ replace_from ".csv" "_modified.csv" 0 rest.
Proof.
  induction stem as [|c stem IH].
  - intros _. destruct rest; reflexivity.
  - change (py_in ".csv" (String c stem))
      with (prefix ".csv" (String c stem) || py_in ".csv" stem).
    intros H. apply orb_false_iff in H as [Hp Hs].
    change (String c stem ++ ".csv" ++ rest) with (String c (stem ++ ".csv" ++ rest)).
    change (replace_from ".csv" "_modified.csv" 0 (String c (stem ++ ".csv" ++ rest)))
      with (if prefix ".csv" (String c (stem ++ ".csv" ++ rest))
            then "_modified.csv"
                 ++ replace_from ".csv" "_modified.csv" 3 (stem ++ ".csv" ++ rest)
            else String c (replace_from ".csv" "_modified.csv" 0
                             (stem ++ ".csv" ++ rest))).
    destruct (prefix ".csv" (String c (stem ++ ".csv" ++ rest))) eqn:E.
    + apply prefix_csv_in_stem in E. congruence.
    + rewrite IH by done. reflexivity.
Qed.



End SavePathFacts.
